(** * diskmgt: the drive registry, the scanner and the auto-labeler

    A shallow embedding of the registry store (storage.js), the device
    scanner (detect.js), the auto-labeler (autoregister.js), the registry
    table (display.js), the API key store (claude-helper.js) and the menu
    actions of the main program that drive them, followed by the
    properties the specification states about them and further
    properties of the code. *)

From Stdlib Require Import ZArith QArith Qround String Ascii List Bool Lia.
From stdpp Require Import base option list gmap strings pretty.

Open Scope string_scope.
Open Scope list_scope.

(** ** JavaScript values and objects

    A drive record is a plain object read from and written to JSON: a
    finite map from property names to JSON primitives.  A property that is
    absent reads as [undefined], which is [None] here; [JSON.stringify]
    drops properties whose value is [undefined], so absence is also what
    the file stores for them.  Numbers are the integers JSON stores
    exactly. *)

Inductive jsval :=
| JStr (s : string)
| JNum (n : Z)
| JBool (b : bool)
| JNull.

#[global] Instance jsval_eq_dec : EqDecision jsval.
Proof. solve_decision. Defined.

Definition jsval_encode (v : jsval) : string + Z + bool + unit :=
  match v with
  | JStr s => inl (inl (inl s))
  | JNum n => inl (inl (inr n))
  | JBool b => inl (inr b)
  | JNull => inr tt
  end.

Definition jsval_decode (x : string + Z + bool + unit) : jsval :=
  match x with
  | inl (inl (inl s)) => JStr s
  | inl (inl (inr n)) => JNum n
  | inl (inr b) => JBool b
  | inr _ => JNull
  end.

#[global] Instance jsval_countable : Countable jsval.
Proof.
  refine (inj_countable' jsval_encode jsval_decode _).
  intros []; reflexivity.
Defined.

Abbreviation record := (gmap string jsval).

(** A value in a condition: [undefined], [null], [""], [0] and [false]
    are falsy. *)
Definition truthy (v : option jsval) : bool :=
  match v with
  | None | Some JNull | Some (JStr "") | Some (JNum 0) | Some (JBool false) => false
  | Some _ => true
  end.

(** [a === b] on primitives and [undefined]. *)
Definition strict_eq (a b : option jsval) : bool := bool_decide (a = b).

(** [d.uuid] *)
Definition uuid_of (d : record) : option jsval := d !! "uuid".

(** ** The process environment: file system, clock, exceptions *)

(** The value of the property [drives] of the parsed file: an array of
    records, or a value that is not an array - [undefined], which is
    [None], or a primitive. *)
Inductive drives_value :=
| Records (drives : list record)
| NoArray (v : option jsval).

(** What [JSON.parse] makes of the text of drives.json: [null], or a
    value [data], of which the code reads the property [drives] only.  An
    object without that property, a number, a string, a boolean and an
    array all have [data.drives === undefined]. *)
Inductive parsed :=
| Null
| Data (drives : drives_value).

(** The text of drives.json: text that [JSON.parse] rejects, or the text
    of a value.  The values represented are those above with records as
    above: a [drives] that is an object but no array, elements of the
    array that are not objects and values nested inside a record are not
    represented. *)
Inductive content :=
| Garbled
| Text (data : parsed).

(** The text of a document [{ drives: [...] }], which is what the tool
    itself writes. *)
Abbreviation Document drives := (Text (Data (Records drives))).

(** [ticks] counts the reads of the system clock made so far. *)
Record world := World {
  config_dir : bool;
  drives_file : option content;
  ticks : nat
}.

Inductive exn :=
| SyntaxError
| TypeError
| ENOENT.

Inductive outcome (A : Type) :=
| Return (a : A) (w : world)
| Throw (e : exn) (w : world).
Arguments Return {A} a w.
Arguments Throw {A} e w.

Definition M (A : Type) : Type := world → outcome A.

#[global] Instance M_ret : MRet M := λ A a w, Return a w.
#[global] Instance M_bind : MBind M := λ A B f m w,
  match m w with
  | Return a w' => f a w'
  | Throw e w' => Throw e w'
  end.

Definition throw {A} (e : exn) : M A := λ w, Throw e w.

(** [try { m } catch (err) { h err }] *)
Definition try_catch {A} (m : M A) (h : exn → M A) : M A := λ w,
  match m w with
  | Return a w' => Return a w'
  | Throw e w' => h e w'
  end.

(** [l.forEach(f)] for an effectful callback. *)
Fixpoint forEach {A} (f : A → M unit) (l : list A) : M unit :=
  match l with
  | [] => mret tt
  | x :: l' => f x ;; forEach f l'
  end.

Definition world_of {A} (o : outcome A) : world :=
  match o with
  | Return _ w => w
  | Throw _ w => w
  end.

(** [data.drives]: reading a property of [null] is a TypeError. *)
Definition get_drives (data : parsed) : M drives_value :=
  match data with
  | Null => throw TypeError
  | Data drives => mret drives
  end.

(** [drives.some(...)], [drives.find(...)], [drives.filter(...)],
    [drives.map(...)], [drives.push(...)]: [undefined] and [null] have no
    properties, and a number, a string or a boolean has no such method,
    so the call is a TypeError unless [drives] is an array. *)
Definition array_method (drives : drives_value) : M (list record) :=
  match drives with
  | Records drives => mret drives
  | NoArray _ => throw TypeError
  end.

(** [drives.length === 0], where the code returns, followed by a call of
    an array method where it goes on: the empty string has length 0 and
    passes for an empty array; every other value that is not an array
    ends in a TypeError, at [.length] for [undefined] and [null] and at
    the method for the rest. *)
Definition length_then_method (drives : drives_value) : M (list record) :=
  match drives with
  | Records drives => mret drives
  | NoArray (Some (JStr "")) => mret []
  | NoArray _ => throw TypeError
  end.

(** [drives.length]: the number of elements of an array and of
    characters of a string, [undefined] ([None]) for a number or a
    boolean, a TypeError for [undefined] and [null]. *)
Definition get_length (drives : drives_value) : M (option nat) :=
  match drives with
  | Records drives => mret (Some (length drives))
  | NoArray (Some (JStr s)) => mret (Some (String.length s))
  | NoArray (Some (JNum _)) | NoArray (Some (JBool _)) => mret None
  | NoArray (Some JNull) | NoArray None => throw TypeError
  end.

(** [drive[field] = value] on a plain object, for a primitive [value]:
    the property is set, except that ["__proto__"] names the prototype
    accessor unless the object has a property of its own by that name
    (one read from the file); through the accessor a primitive is
    ignored and [null] changes the prototype only, so no property is
    stored. *)
Definition set_property (field : string) (value : jsval) (drive : record) : record :=
  if String.eqb field "__proto__" && bool_decide (drive !! field = None)
  then drive
  else <[field := value]> drive.

Module fs.

Inductive path := CONFIG_DIR | DRIVES_FILE.

Definition existsSync (p : path) : M bool := λ w,
  match p with
  | CONFIG_DIR => Return (config_dir w) w
  | DRIVES_FILE => Return (bool_decide (is_Some (drives_file w))) w
  end.

(** [fs.mkdirSync(CONFIG_DIR, { recursive: true })] *)
Definition mkdirSync : M unit := λ w,
  Return tt (World true (drives_file w) (ticks w)).

(** [fs.writeFileSync(DRIVES_FILE, text)] *)
Definition writeFileSync (text : content) : M unit := λ w,
  if config_dir w then Return tt (World true (Some text) (ticks w))
  else Throw ENOENT w.

(** [fs.readFileSync(DRIVES_FILE, 'utf8')] *)
Definition readFileSync : M content := λ w,
  match drives_file w with
  | Some text => Return text w
  | None => Throw ENOENT w
  end.

End fs.

Module JSON.

(** [JSON.parse(text)] *)
Definition parse (text : content) : M parsed :=
  match text with
  | Garbled => throw SyntaxError
  | Text data => mret data
  end.

(** [JSON.stringify(data, null, 2)] *)
Definition stringify (data : parsed) : content := Text data.

End JSON.

(** ** storage.js *)

Module storage.

Definition initStorage : M unit :=
  d ← fs.existsSync fs.CONFIG_DIR;
  (if negb d then fs.mkdirSync else mret tt) ;;
  f ← fs.existsSync fs.DRIVES_FILE;
  if negb f then fs.writeFileSync (JSON.stringify (Data (Records []))) else mret tt.

(** The result is whatever [drives] is in the file, not always an
    array. *)
Definition getAllDrives : M drives_value :=
  initStorage ;;
  try_catch
    (text ← fs.readFileSync; data ← JSON.parse text; get_drives data)
    (λ _, mret (Records [])).

Definition getDriveByUUID (uuid : option jsval) : M (option record) :=
  drives ← getAllDrives;
  drives ← array_method drives;
  mret (find (λ d, strict_eq (uuid_of d) uuid) drives).

Section Clock.

(** The system clock: [clock k] is the string that the [k]-th
    evaluation of [new Date().toISOString()] yields. *)
Variable clock : nat → string.

Definition Date_toISOString : M string := λ w,
  Return (clock (ticks w)) (World (config_dir w) (drives_file w) (S (ticks w))).

Definition addDrive (driveData : record) : M bool :=
  initStorage ;;
  text ← fs.readFileSync;
  data ← JSON.parse text;
  drives ← get_drives data;
  drives ← array_method drives;
  if existsb (λ d, strict_eq (uuid_of d) (uuid_of driveData)) drives
  then mret false
  else
    timestamp ← Date_toISOString;
    let drives :=
      drives ++ [ <["last_seen" := JStr timestamp]>
                    (<["first_seen" := JStr timestamp]> driveData) ] in
    fs.writeFileSync (JSON.stringify (Data (Records drives))) ;;
    mret true.

Definition updateLastSeen (uuid : option jsval) : M unit :=
  initStorage ;;
  text ← fs.readFileSync;
  data ← JSON.parse text;
  drives ← get_drives data;
  drives ← array_method drives;
  match list_find (λ d, uuid_of d = uuid) drives with
  | Some (i, drive) =>
      timestamp ← Date_toISOString;
      let drives := <[i := <["last_seen" := JStr timestamp]> drive]> drives in
      fs.writeFileSync (JSON.stringify (Data (Records drives)))
  | None => mret tt
  end.

End Clock.

Definition updateDriveField (uuid : option jsval) (field : string) (value : jsval)
  : M bool :=
  initStorage ;;
  text ← fs.readFileSync;
  data ← JSON.parse text;
  drives ← get_drives data;
  drives ← array_method drives;
  match list_find (λ d, uuid_of d = uuid) drives with
  | Some (i, drive) =>
      let drives := <[i := set_property field value drive]> drives in
      fs.writeFileSync (JSON.stringify (Data (Records drives))) ;;
      mret true
  | None => mret false
  end.

Definition removeDrive (uuid : option jsval) : M unit :=
  initStorage ;;
  text ← fs.readFileSync;
  data ← JSON.parse text;
  drives ← get_drives data;
  drives ← array_method drives;
  let drives := filter (λ d, uuid_of d ≠ uuid) drives in
  fs.writeFileSync (JSON.stringify (Data (Records drives))).

(** The result is [None] for [undefined]. *)
Definition countDrives : M (option nat) :=
  drives ← getAllDrives; get_length drives.

End storage.

(** ** Built-in string operations

    Strings are sequences of code units below 256.  Each function is the
    built-in or the regular-expression replacement named in its comment. *)

Module js.

Definition code (c : ascii) : nat := nat_of_ascii c.

Definition between (lo hi : nat) (c : ascii) : bool :=
  Nat.leb lo (code c) && Nat.leb (code c) hi.

(** [\s], and the characters [trim] strips. *)
Definition is_space (c : ascii) : bool :=
  between 9 13 c || between 32 32 c || between 160 160 c.

(** [\d] *)
Definition is_digit (c : ascii) : bool := between 48 57 c.

Definition is_upper (c : ascii) : bool := between 65 90 c.

Definition is_lower (c : ascii) : bool := between 97 122 c.

(** [x || dflt] for a string that may be [null]: the empty string is
    falsy too. *)
Definition or_else (x : option string) (dflt : string) : string :=
  match x with
  | Some (String c s) => String c s
  | _ => dflt
  end.

(** [s.includes(sub)] *)
Fixpoint includes (sub s : string) : bool :=
  String.prefix sub s ||
  match s with
  | "" => false
  | String _ s' => includes sub s'
  end.

(** [s.startsWith(p)] *)
Definition startsWith (p s : string) : bool := String.prefix p s.

(** [s.substring(0, n)] *)
Definition substring0 (n : nat) (s : string) : string := String.substring 0 n s.

Definition lower (c : ascii) : ascii :=
  if is_upper c || (between 192 222 c && negb (between 215 215 c))
  then ascii_of_nat (code c + 32) else c.

(** [s.toLowerCase()] *)
Fixpoint toLowerCase (s : string) : string :=
  match s with
  | "" => ""
  | String c s' => String (lower c) (toLowerCase s')
  end.

Fixpoint dropWhile (p : ascii → bool) (s : string) : string :=
  match s with
  | "" => ""
  | String c s' => if p c then dropWhile p s' else s
  end.

Fixpoint takeWhile (p : ascii → bool) (s : string) : string :=
  match s with
  | "" => ""
  | String c s' => if p c then String c (takeWhile p s') else ""
  end.

Fixpoint rev_onto (s acc : string) : string :=
  match s with
  | "" => acc
  | String c s' => rev_onto s' (String c acc)
  end.

Definition rev (s : string) : string := rev_onto s "".

(** [s.trim()] *)
Definition trim (s : string) : string :=
  rev (dropWhile is_space (rev (dropWhile is_space s))).

Definition is_slash (c : ascii) : bool := Ascii.eqb c "/".

(** [path.basename(p)] (POSIX): trailing slashes are dropped, then the
    text after the last remaining slash is kept. *)
Definition basename (p : string) : string :=
  rev (takeWhile (λ c, negb (is_slash c)) (dropWhile is_slash (rev p))).

Fixpoint has_close (s : string) : bool :=
  match s with
  | "" => false
  | String c s' => Ascii.eqb c ")" || has_close s'
  end.

Fixpoint strip_parens (inside : bool) (s : string) : string :=
  match s with
  | "" => ""
  | String c s' =>
      if inside then strip_parens (negb (Ascii.eqb c ")")) s'
      else if Ascii.eqb c "(" && has_close s' then strip_parens true s'
      else String c (strip_parens false s')
  end.

(** [s.replace(/\([^)]*\)/g, '')] *)
Definition remove_parens (s : string) : string := strip_parens false s.

Fixpoint dash_runs (in_run : bool) (s : string) : string :=
  match s with
  | "" => ""
  | String c s' =>
      if is_space c
      then if in_run then dash_runs true s' else String "-" (dash_runs true s')
      else String c (dash_runs false s')
  end.

(** [s.replace(/\s+/g, '-')] *)
Definition spaces_to_dash (s : string) : string := dash_runs false s.

Definition is_label_char (c : ascii) : bool :=
  is_lower c || is_upper c || is_digit c || Ascii.eqb c "-" || Ascii.eqb c "_".

(** [s.replace(/[^a-zA-Z0-9-_]/g, '-')] *)
Fixpoint sanitize (s : string) : string :=
  match s with
  | "" => ""
  | String c s' => String (if is_label_char c then c else "-"%char) (sanitize s')
  end.

(** [s.replace(/\./g, '')] *)
Fixpoint remove_dots (s : string) : string :=
  match s with
  | "" => ""
  | String c s' => if Ascii.eqb c "." then remove_dots s' else String c (remove_dots s')
  end.

(** [s.replace(/p?\d+$/, '')]: the trailing run of digits, when there is
    one, is removed together with a [p] that stands just before it. *)
Definition strip_partition_suffix (s : string) : string :=
  let r := rev s in
  match r with
  | String c _ =>
      if is_digit c then
        match dropWhile is_digit r with
        | String "p" r' => rev r'
        | r' => rev r'
        end
      else s
  | "" => s
  end.

End js.

(** ** detect.js *)

Module detect.

(** One entry of [lsblk --json]; a device without [children] has the
    empty list. *)
#[warnings="-register-all"]
Inductive blockdev := BlockDev {
  bd_name : string;
  bd_size : N;
  bd_type : string;
  bd_mountpoint : option string;
  bd_fstype : option string;
  bd_model : option string;
  bd_uuid : option string;
  bd_children : list blockdev
}.

(** An entry of the flat list the scan returns. *)
Record drive := Drive {
  d_name : string;
  d_size : string;
  d_type : string;
  d_mountpoint : string;
  d_fstype : string;
  d_model : string;
  d_uuid : string;
  d_device : string
}.

#[global] Instance drive_eq_dec : EqDecision drive.
Proof. solve_decision. Defined.

Definition units : list string := ["B"; "KB"; "MB"; "GB"; "TB"].

(** The [while] loop of formatSize: [rest] holds the units above the
    current one, so [unitIndex < units.length - 1] reads [rest ≠ []]. *)
Fixpoint ladder (size : Q) (unit : string) (rest : list string) : Q * string :=
  match rest with
  | next :: rest' =>
      if Qle_bool 1024 size then ladder (size / 1024) next rest'
      else (size, unit)
  | [] => (size, unit)
  end.

(** [x.toFixed(1)] for [x ≥ 0]: the nearest multiple of a tenth, the
    larger one on a tie. *)
Definition toFixed1 (x : Q) : string :=
  let n := Qfloor (x * 10 + (1 # 2))%Q in
  pretty (n / 10)%Z +:+ "." +:+ pretty (n mod 10)%Z.

Definition formatSize (bytes : N) : string :=
  match units with
  | u :: rest =>
      let '(size, unit) := ladder (inject_Z (Z.of_N bytes)) u rest in
      toFixed1 size +:+ unit
  | [] => ""
  end.

Definition getDriveType (name : string) : string :=
  if js.startsWith "mmcblk" name then "SD Card"
  else if js.startsWith "nvme" name then "NVMe SSD"
  else if js.startsWith "sd" name then "USB/SATA Drive"
  else "Unknown".

Definition tracked (type : string) : bool :=
  String.eqb type "disk" || String.eqb type "part".

Definition entry (device : blockdev) : drive :=
  {| d_name := bd_name device;
     d_size := formatSize (bd_size device);
     d_type := bd_type device;
     d_mountpoint := js.or_else (bd_mountpoint device) "not mounted";
     d_fstype := js.or_else (bd_fstype device) "unknown";
     d_model := js.or_else (bd_model device) "Unknown Model";
     d_uuid := js.or_else (bd_uuid device) ("NO-UUID-" +:+ bd_name device);
     d_device := "/dev/" +:+ bd_name device |}.

(** [drives] is the array the closure pushes to; the result is the array
    after the call. *)
Fixpoint processDrive (device : blockdev) (drives : list drive) : list drive :=
  if tracked (bd_type device) then
    fold_left (λ drives child, processDrive child drives)
              (bd_children device) (drives ++ [entry device])
  else drives.

(** [lsblk] is what [execSync] and [JSON.parse] give: [data.blockdevices],
    or [None] when either of them throws. *)
Definition detectDrives (lsblk : option (list blockdev)) : list drive :=
  match lsblk with
  | Some blockdevices =>
      fold_left (λ drives device, processDrive device drives) blockdevices []
  | None => []
  end.

End detect.

(** ** lxcinfo.js *)

Module lxcinfo.

Definition units : list string := ["B"; "KB"; "MB"; "GB"; "TB"].

(** Two digits, as [toFixed(2)] prints the hundredths. *)
Definition two_digits (n : Z) : string :=
  if (n <? 10)%Z then "0" +:+ pretty n else pretty n.

(** [x.toFixed(2)] for [x ≥ 0]: the nearest multiple of a hundredth, the
    larger one on a tie. *)
Definition toFixed2 (x : Q) : string :=
  let n := Qfloor (x * 100 + (1 # 2))%Q in
  pretty (n / 100)%Z +:+ "." +:+ two_digits (n mod 100)%Z.

(** formatBytes has the loop of detect.formatSize word for word; only the
    last line differs. *)
Definition formatBytes (bytes : N) : string :=
  match units with
  | u :: rest =>
      let '(size, unit) := detect.ladder (inject_Z (Z.of_N bytes)) u rest in
      toFixed2 size +:+ " " +:+ unit
  | [] => ""
  end.

End lxcinfo.

(** ** autoregister.js *)

Module autoregister.
Import detect.

(** What diskinfo.getDetailedDiskInfo returns, as far as the labeler
    reads it. *)
Record pool := Pool { pool_name : string; pool_driver : string }.

Record lxd_info := LxdInfo {
  isLXD : bool;
  pools : list pool;
  containers : list string
}.

Record os_entry := OsEntry { os_partition : string; osType : string }.

Record boot_partition := BootPartition { bp_number : string; bp_flags : list string }.

Record detailed_info := DetailedInfo {
  lxdInfo : option lxd_info;
  osInfo : list os_entry;
  bootable : bool;
  bootPartitions : list boot_partition
}.

(** The commands the module runs.  [blkid_label dev] is the output of
    [blkid -s LABEL -o value dev] and [ls_head dir] that of
    [ls -1 dir | head -10]; [None] when [execSync] throws. *)
Record system := System {
  blkid_label : string → option string;
  ls_head : string → option string;
  getDetailedDiskInfo : string → detailed_info
}.

(** [a ?? b]: the first rule that returns decides. *)
Definition or_next (a : option string) (b : option string) : option string :=
  match a with
  | Some x => Some x
  | None => b
  end.

Definition mounted (drive : drive) : bool :=
  negb (String.eqb (d_mountpoint drive) "") &&
  negb (String.eqb (d_mountpoint drive) "not mounted").

Section Labeler.

Variable sys : system.

(** Priority 1: LXD Storage *)
Definition label_lxd (detailedInfo : detailed_info) : option string :=
  match lxdInfo detailedInfo with
  | Some lxd =>
      if isLXD lxd then
        match pools lxd with
        | p :: _ => Some ("LXD-" +:+ pool_name p)
        | [] => Some "LXD-Storage"
        end
      else None
  | None => None
  end.

(** Priority 2: OS Installation *)
Definition label_os (detailedInfo : detailed_info) : option string :=
  match osInfo detailedInfo with
  | os :: _ =>
      if negb (String.eqb (osType os) "") &&
         negb (String.eqb (osType os) "Unknown") &&
         negb (js.includes "Unknown" (osType os))
      then Some (js.substring0 20
                   (js.spaces_to_dash (js.remove_parens (osType os))))
      else None
  | [] => None
  end.

(** Priority 3: Boot partition *)
Definition label_boot (detailedInfo : detailed_info) : option string :=
  if bootable detailedInfo && negb (Nat.eqb (length (bootPartitions detailedInfo)) 0)
  then Some "Boot-Drive" else None.

(** Priority 4: Mount point *)
Definition label_mount (drive : drive) : option string :=
  if mounted drive then
    let mountName := js.basename (d_mountpoint drive) in
    if negb (String.eqb mountName "") && negb (String.eqb mountName "/")
    then Some (js.sanitize mountName)
    else if String.eqb (d_mountpoint drive) "/" then Some "Root-System"
    else None
  else None.

(** Priority 5: Filesystem label *)
Definition label_volume (drive : drive) : option string :=
  if String.eqb (d_fstype drive) "vfat" || String.eqb (d_fstype drive) "ntfs" then
    match blkid_label sys (d_device drive) with
    | Some out =>
        let label := js.trim out in
        if negb (String.eqb label "")
        then Some (js.substring0 20 (js.spaces_to_dash label))
        else None
    | None => None
    end
  else None.

(** Priority 6: Model name *)
Definition label_model (drive : drive) : option string :=
  if negb (String.eqb (d_model drive) "") &&
     negb (String.eqb (d_model drive) "Unknown Model") &&
     negb (String.eqb (d_model drive) "unknown")
  then Some (js.substring0 20 (js.spaces_to_dash (d_model drive)))
  else None.

(** Fallback: Device name + size *)
Definition label_fallback (drive : drive) : string :=
  d_name drive +:+ "-" +:+ js.remove_dots (d_size drive).

Definition generateSmartLabel (drive : drive) (detailedInfo : detailed_info)
  : string :=
  default (label_fallback drive)
    (or_next (label_lxd detailedInfo)
    (or_next (label_os detailedInfo)
    (or_next (label_boot detailedInfo)
    (or_next (label_mount drive)
    (or_next (label_volume drive)
             (label_model drive)))))).

Definition purpose_mount (drive : drive) : option string :=
  if mounted drive then
    let mount := js.toLowerCase (d_mountpoint drive) in
    if js.includes "backup" mount || js.includes "timeshift" mount
    then Some "Backup"
    else if js.includes "media" mount || js.includes "videos" mount
            || js.includes "music" mount
    then Some "Media Storage"
    else if js.includes "data" mount || js.includes "storage" mount
    then Some "Data Storage"
    else if js.includes "project" mount || js.includes "dev" mount
    then Some "Development"
    else if String.eqb mount "/" then Some "System Root"
    else None
  else None.

Definition purpose_dirs (drive : drive) : option string :=
  if mounted drive then
    match ls_head sys (d_mountpoint drive) with
    | Some out =>
        let dirs := js.trim out in
        if js.includes "backup" dirs || js.includes "Backup" dirs
        then Some "Backup Storage"
        else if js.includes "Media" dirs || js.includes "media" dirs
        then Some "Media Storage"
        else if js.includes "Documents" dirs || js.includes "documents" dirs
        then Some "Document Storage"
        else None
    | None => None
    end
  else None.

Definition detectPurpose (drive : drive) (detailedInfo : detailed_info)
  : string :=
  match lxdInfo detailedInfo with
  | Some (LxdInfo true _ cs) =>
      let containerCount := length cs in
      if negb (Nat.eqb containerCount 0)
      then "LXD Storage (" +:+ pretty containerCount +:+ " containers)"
      else "LXD Storage"
  | _ =>
      if negb (Nat.eqb (length (osInfo detailedInfo)) 0) then "Operating System"
      else if bootable detailedInfo then "System Boot"
      else
        default "General Storage"
          (or_next (purpose_mount drive)
          (or_next (if String.eqb (d_fstype drive) "swap"
                    then Some "Swap Memory" else None)
                   (purpose_dirs drive)))
  end.

Definition autoRegisterDrive (drive : drive) : record :=
  let devicePath := js.strip_partition_suffix (d_device drive) in
  let detailedInfo := getDetailedDiskInfo sys devicePath in
  let label := generateSmartLabel drive detailedInfo in
  let purpose := detectPurpose drive detailedInfo in
  let driveType := getDriveType (d_name drive) in
  <["uuid" := JStr (d_uuid drive)]>
  (<["label" := JStr label]>
  (<["size" := JStr (d_size drive)]>
  (<["type" := JStr driveType]>
  (<["purpose" := JStr purpose]>
  (<["device" := JStr (d_device drive)]> ∅))))).

(** No call of autoRegisterDrive throws here, so the [catch] of the
    loop body is never entered and every drive is pushed. *)
Definition autoRegisterAll (detectedDrives : list drive) (knownDrives : list record)
  : list record :=
  let knownUUIDs : gset (option jsval) := list_to_set (uuid_of <$> knownDrives) in
  let partitions :=
    filter (λ d, d_type d = "part") detectedDrives in
  let unregistered :=
    filter (λ d, Some (JStr (d_uuid d)) ∉ knownUUIDs) partitions in
  autoRegisterDrive <$> unregistered.

End Labeler.

End autoregister.

(** ** claude-helper.js: the API key *)

Module claudeHelper.

(** The text of config.json: text that [JSON.parse] rejects, or the text
    of an object, of a primitive ([null], a number, a string, a boolean)
    or of an array.  The settings of an object and the items of an array
    are primitives here. *)
Inductive config_text :=
| BadConfig
| Config (fields : gmap string jsval)
| ConfigPrimitive (v : jsval)
| ConfigArray (items : list jsval).

(** What the module reads and writes: the environment variable, the
    configuration directory and the configuration file. *)
Record env := Env {
  ANTHROPIC_API_KEY : option string;
  config_dir_exists : bool;
  config_file : option config_text
}.

(** How a call ends: it returns, or it raises, in the environment it
    leaves behind. *)
Inductive result :=
| Done (e : env)
| Raised (err : exn) (e : env).

Definition env_of (r : result) : env :=
  match r with
  | Done e => e
  | Raised _ e => e
  end.

(** The result is [None] for [null].  Only an object has settings:
    reading a property of [null] raises inside the [try], and a number,
    a string, a boolean or an array has no property [anthropicApiKey]. *)
Definition getApiKey (e : env) : option jsval :=
  match ANTHROPIC_API_KEY e with
  | Some (String c key) => Some (JStr (String c key))
  | _ =>
      match config_file e with
      | Some (Config config) =>
          if truthy (config !! "anthropicApiKey")
          then config !! "anthropicApiKey" else None
      | Some BadConfig => None
      | Some (ConfigPrimitive _) => None
      | Some (ConfigArray _) => None
      | None => None
      end
  end.

(** [config.anthropicApiKey = apiKey] stands outside the [try]: on
    [null] it raises a TypeError before the file is written; on another
    primitive it is ignored, and on an array it sets a property that
    [JSON.stringify] leaves out, so the file is written back with the
    value it had. *)
Definition saveApiKey (apiKey : string) (e : env) : result :=
  let write text := Done (Env (ANTHROPIC_API_KEY e) true (Some text)) in
  match config_file e with
  | Some (Config config) =>
      write (Config (<["anthropicApiKey" := JStr apiKey]> config))
  | Some BadConfig => write (Config (<["anthropicApiKey" := JStr apiKey]> ∅))
  | None => write (Config (<["anthropicApiKey" := JStr apiKey]> ∅))
  | Some (ConfigPrimitive JNull) =>
      Raised TypeError (Env (ANTHROPIC_API_KEY e) true (config_file e))
  | Some (ConfigPrimitive v) => write (ConfigPrimitive v)
  | Some (ConfigArray items) => write (ConfigArray items)
  end.

Definition isAIAvailable (e : env) : bool :=
  match getApiKey e with
  | Some _ => true
  | None => false
  end.

End claudeHelper.

(** ** display.js *)

Module display.
Import detect.

(** A line of the registry table, before colouring. *)
Record row := Row {
  row_index : nat;
  row_label : jsval;
  row_connected : bool;
  row_size : option jsval;
  row_type : option jsval;
  row_mount : option string
}.

(** The rows pushed to the table when [knownDrives] is an array; for an
    empty registry a notice is printed instead and there is no row.  What
    [knownDrives.length] and [knownDrives.forEach] do with a value that
    is not an array is [length_then_method], at the call in showDrives. *)
Definition displayDriveList (detectedDrives : list drive) (knownDrives : list record)
  : list row :=
  let detectedUUIDs : gset (option jsval) :=
    list_to_set ((λ d, Some (JStr (d_uuid d))) <$> detectedDrives) in
  imap (λ index drive,
    let isConnected := bool_decide (uuid_of drive ∈ detectedUUIDs) in
    let mount :=
      if isConnected then
        match find (λ d, strict_eq (Some (JStr (d_uuid d))) (uuid_of drive))
                   detectedDrives with
        | Some detected =>
            if negb (String.eqb (d_mountpoint detected) "not mounted")
            then Some (d_mountpoint detected) else None
        | None => None
        end
      else None in
    {| row_index := index + 1;
       row_label := if truthy (drive !! "label")
                    then default JNull (drive !! "label") else JStr "Unlabeled";
       row_connected := isConnected;
       row_size := drive !! "size";
       row_type := drive !! "type";
       row_mount := mount |}) knownDrives.

End display.

(** ** The main program: the "show" and "add" menu actions *)

Module diskmgt.
Import detect.

(** What the user answers in the "add" menu. *)
Inductive selection :=
| Cancel
| AutoAll (confirmAll : bool)
| Pick (selectedDrive : drive) (label type purpose : string).

Section Program.

Variable clock : nat → string.
Variable sys : autoregister.system.

Definition showDrives (lsblk : option (list blockdev)) : M (list display.row) :=
  let detected := detectDrives lsblk in
  known ← storage.getAllDrives;
  forEach (λ d,
    let uuid := Some (JStr (d_uuid d)) in
    found ← storage.getDriveByUUID uuid;
    match found with
    | Some _ => storage.updateLastSeen clock uuid
    | None => mret tt
    end) detected ;;
  knownDrives ← length_then_method known;
  mret (display.displayDriveList detected knownDrives).

(** The loop that registers the previewed records and counts the
    successes. *)
Fixpoint registerEach (autoRegistered : list record) (successCount : nat) : M nat :=
  match autoRegistered with
  | [] => mret successCount
  | driveData :: rest =>
      storage.addDrive clock driveData ≫= λ ok : bool,
      registerEach rest (if ok then S successCount else successCount)
  end.

(** The result is the number of records added. *)
Definition addDrive (lsblk : option (list blockdev)) (choice : selection) : M nat :=
  let detected := detectDrives lsblk in
  known ← storage.getAllDrives;
  known ← array_method known;
  let knownUUIDs : gset (option jsval) := list_to_set (uuid_of <$> known) in
  let partitions := filter (λ d, d_type d = "part") detected in
  let unregistered :=
    filter (λ d, Some (JStr (d_uuid d)) ∉ knownUUIDs) partitions in
  match unregistered with
  | [] => mret 0
  | _ =>
      match choice with
      | Cancel => mret 0
      | AutoAll confirmAll =>
          let autoRegistered :=
            autoregister.autoRegisterAll sys unregistered known in
          match autoRegistered with
          | [] => mret 0
          | _ => if confirmAll then registerEach autoRegistered 0 else mret 0
          end
      | Pick selectedDrive label type purpose =>
          let driveData : record :=
            <["uuid" := JStr (d_uuid selectedDrive)]>
            (<["label" := JStr label]>
            (<["size" := JStr (d_size selectedDrive)]>
            (<["type" := JStr type]>
            (<["purpose" := JStr purpose]>
            (<["device" := JStr (d_device selectedDrive)]> ∅))))) in
          storage.addDrive clock driveData ≫= λ ok : bool,
          mret (if ok then 1 else 0)
      end
  end.

End Program.

(** The fields the "edit" menu offers. *)
Inductive edit_field :=
| EditLabel
| EditType
| EditPurpose.

Definition field_name (f : edit_field) : string :=
  match f with
  | EditLabel => "label"
  | EditType => "type"
  | EditPurpose => "purpose"
  end.

(** The list prompts of the "edit" and "remove" menus show the registered
    records in order; [selected] is the position the user picks, [None]
    (or a position that is not on the list) for Cancel. *)
Definition pick (known : list record) (selected : option nat) : option record :=
  selected ≫= λ i, known !! i.

(** The result is [None] when the menu is left before the store is
    called, else what updateDriveField answered. *)
Definition editDrive (selected : option nat) (field : option edit_field)
    (newValue : string) : M (option bool) :=
  known ← storage.getAllDrives;
  known ← length_then_method known;
  match known with
  | [] => mret None
  | _ =>
      match pick known selected with
      | None => mret None
      | Some selectedDrive =>
          match field with
          | None => mret None
          | Some f =>
              storage.updateDriveField (uuid_of selectedDrive) (field_name f)
                (JStr newValue) ≫= λ ok : bool,
              mret (Some ok)
          end
      end
  end.

(** The result tells whether storage.removeDrive was called. *)
Definition removeDrive (selected : option nat) (confirm : bool) : M bool :=
  known ← storage.getAllDrives;
  known ← length_then_method known;
  match known with
  | [] => mret false
  | _ =>
      match pick known selected with
      | None => mret false
      | Some selectedDrive =>
          if confirm
          then storage.removeDrive (uuid_of selectedDrive) ;; mret true
          else mret false
      end
  end.

(** [`${v}`] for a property of a record. *)
Definition to_text (v : option jsval) : string :=
  match v with
  | None => "undefined"
  | Some JNull => "null"
  | Some (JStr s) => s
  | Some (JNum n) => pretty n
  | Some (JBool true) => "true"
  | Some (JBool false) => "false"
  end.

(** The text of a record that the basic search looks into. *)
Definition searchText (d : record) : string :=
  js.toLowerCase
    (to_text (d !! "label") +:+ " " +:+ to_text (d !! "type") +:+ " " +:+
     to_text (d !! "purpose") +:+ " " +:+ to_text (d !! "device")).

(** The callback of the filter of the basic search. *)
Definition basic_match (queryLower : string) (d : record) : bool :=
  let searchText := searchText d in
  if js.includes queryLower searchText then true
  else if String.eqb queryLower "lxc" && js.includes "lxd" searchText then true
  else if String.eqb queryLower "lxd" && js.includes "lxc" searchText then true
  else if String.eqb queryLower "container" && js.includes "lxd" searchText then true
  else if String.eqb queryLower "os" && js.includes "operating system" searchText
  then true
  else if String.eqb queryLower "system" && js.includes "operating system" searchText
  then true
  else if String.eqb queryLower "root" && js.includes "root-system" searchText
  then true
  else false.

(** How the search is run: the basic text search (no API key, or chosen
    by the user), or the semantic search with what it resolves to, [None]
    when it throws. *)
Inductive search_method :=
| Basic
| Semantic (matchingUUIDs : option (list jsval)).

(** The result is [None] for a blank query, else the records found.
    The filter of the semantic search runs inside the [try] whose handler
    falls back to the basic search. *)
Definition searchDrives (query : string) (method : search_method)
    : M (option (list record)) :=
  if String.eqb (js.trim query) "" then mret None
  else
    known ← storage.getAllDrives;
    let basic : M (list record) :=
      let queryLower := js.toLowerCase query in
      known ← array_method known;
      mret (List.filter (basic_match queryLower) known) in
    results ←
      match method with
      | Semantic (Some matchingUUIDs) =>
          try_catch
            (known ← array_method known;
             mret (List.filter
                     (λ d, bool_decide (uuid_of d ∈ (Some <$> matchingUUIDs))) known))
            (λ _, basic)
      | Semantic None => basic
      | Basic => basic
      end;
    mret (Some results).

(** The entries of the disk prompt of "Detailed disk information": the
    loop keeps [disks] and [seenDisks]; a choice is the pair of the text
    shown and the device path. *)
Definition diskChoice (d : drive) : string * string :=
  (d_name d +:+ " (" +:+ d_size d +:+ ") - " +:+ d_model d, d_device d).

Definition addDisk (acc : list (string * string) * gset string) (d : drive)
    : list (string * string) * gset string :=
  let '(disks, seenDisks) := acc in
  let diskDevice := js.strip_partition_suffix (d_device d) in
  if bool_decide (diskDevice ∉ seenDisks) && String.eqb (d_type d) "disk"
  then (disks ++ [diskChoice d], {[diskDevice]} ∪ seenDisks)
  else (disks, seenDisks).

Definition diskChoices (detected : list drive) : list (string * string) :=
  fst (fold_left addDisk detected ([], ∅)).

End diskmgt.

(** * Vocabulary of the statements *)

(** What the store holds: the records of the document, none for a file
    that is absent, does not parse or holds another value. *)
Definition stored (w : world) : list record :=
  match drives_file w with
  | Some (Document ds) => ds
  | _ => []
  end.

(** The backing file can be read: it is absent (and will be created) or
    holds a document. *)
Definition readable (w : world) : Prop :=
  match drives_file w with
  | None | Some (Document _) => True
  | Some _ => False
  end.

(** The backing file parses to a value whose [drives] is not an array. *)
Definition misshapen (w : world) : Prop :=
  match drives_file w with
  | Some (Text (Data (NoArray _))) => True
  | _ => False
  end.

(** What getAllDrives hands out: the value of [drives] in the file, the
    empty array for a file that is absent, unparseable or [null]. *)
Definition listed (w : world) : drives_value :=
  match drives_file w with
  | Some (Text (Data drives)) => drives
  | _ => Records []
  end.

(** The exception a backing file that is not a document raises in
    addDrive, updateLastSeen, updateDriveField and removeDrive: the
    parser rejects the text, [data] is [null], or [data.drives] is not an
    array. *)
Definition refusal (w : world) : option exn :=
  match drives_file w with
  | Some Garbled => Some SyntaxError
  | Some (Text Null) | Some (Text (Data (NoArray _))) => Some TypeError
  | Some (Document _) | None => None
  end.

(** The world after initStorage. *)
Definition initialized (w : world) : world :=
  World true (Some (default (Document []) (drives_file w))) (ticks w).

(** [{ ...driveData, first_seen: timestamp, last_seen: timestamp }] *)
Definition stamp (timestamp : string) (driveData : record) : record :=
  <["last_seen" := JStr timestamp]> (<["first_seen" := JStr timestamp]> driveData).

(** The world after a write of [ds] that followed [reads] clock reads. *)
Definition written (ds : list record) (reads : nat) (w : world) : world :=
  World true (Some (Document ds)) (reads + ticks w).

(** An empty store: no backing file yet, or a document without records. *)
Definition empty_store (w : world) : Prop := readable w ∧ stored w = [].

(** The store can be read and no two of its records bear the same uuid. *)
Definition distinct_uuids (w : world) : Prop :=
  readable w ∧ NoDup (uuid_of <$> stored w).

(** A clock for the examples: every read gives the same instant. *)
Definition frozen_clock : nat → string := λ _, "2024-01-01T00:00:00.000Z".

(** A machine on which the tool has never run. *)
Definition fresh : world := World false None 0.

(** What one call of processDrive pushes. *)
Definition emitted (device : detect.blockdev) : list detect.drive :=
  detect.processDrive device [].

(** The devices the traversal of a scan calls processDrive on: the
    top-level devices, and the children of a tracked device it reaches. *)
Inductive visited (blockdevices : list detect.blockdev) : detect.blockdev → Prop :=
| visited_top device :
    device ∈ blockdevices → visited blockdevices device
| visited_child parent child :
    visited blockdevices parent →
    detect.tracked (detect.bd_type parent) = true →
    child ∈ detect.bd_children parent →
    visited blockdevices child.

(** A scan for the examples: a disk with two partitions, the second
    without a filesystem uuid, and a loop device. *)
Definition sdb1 : detect.blockdev :=
  detect.BlockDev "sdb1" 1073741824 "part" (Some "/mnt/data") (Some "ext4")
    None (Some "abc-123") [].

Definition sdb2 : detect.blockdev :=
  detect.BlockDev "sdb2" 536870912 "part" None None None None [].

Definition sdb : detect.blockdev :=
  detect.BlockDev "sdb" 1610612736 "disk" None None (Some "Flash Drive") None
    [sdb1; sdb2].

Definition loop0 : detect.blockdev :=
  detect.BlockDev "loop0" 4096 "loop" (Some "/snap/core") (Some "squashfs")
    None None [].

Definition example_scan : option (list detect.blockdev) := Some [loop0; sdb].


(** Probes and command outputs for the examples. *)
Definition no_info : autoregister.detailed_info :=
  autoregister.DetailedInfo None [] false [].

Definition lxd_probe : autoregister.detailed_info :=
  autoregister.DetailedInfo
    (Some (autoregister.LxdInfo true [autoregister.Pool "default" "btrfs"] ["web"]))
    [] false [].

Definition quiet_system : autoregister.system :=
  autoregister.System (λ _, Some "") (λ _, Some "") (λ _, no_info).

Definition system_with (blkid ls : string) : autoregister.system :=
  autoregister.System (λ _, Some blkid) (λ _, Some ls) (λ _, no_info).

Definition usb_stick : detect.drive :=
  detect.Drive "sdc1" "7.5GB" "part" "/mnt/usb" "vfat" "Unknown Model"
    "1234-ABCD" "/dev/sdc1".

Definition usb_stick_unmounted : detect.drive :=
  detect.Drive "sdc1" "7.5GB" "part" "not mounted" "vfat" "Unknown Model"
    "1234-ABCD" "/dev/sdc1".




(** Every last_seen in the store was read from the clock before now. *)
Definition stamped_by (clock : nat → string) (w : world) : Prop :=
  ∀ r, r ∈ stored w →
       ∃ k, k < ticks w ∧ r !! "last_seen" = Some (JStr (clock k)).



(** A clock for the examples that advances: the first read falls on one
    day and every later read on the next. *)
Definition two_day_clock (k : nat) : string :=
  match k with
  | 0 => "2024-01-01T00:00:00.000Z"
  | S _ => "2024-01-02T00:00:00.000Z"
  end.

(** The body of the loop of showDrives. *)
Definition touch_if_known (clock : nat → string) (d : detect.drive) : M unit :=
  let uuid := Some (JStr (detect.d_uuid d)) in
  found ← storage.getDriveByUUID uuid;
  match found with
  | Some _ => storage.updateLastSeen clock uuid
  | None => mret tt
  end.

(** The size after [k] turns of the loop of formatSize, and the power of
    1024 it has been divided by. *)
Definition rung (size : Q) (k : nat) : Q := Nat.iter k (λ q, (q / 1024)%Q) size.

Definition pow1024 (k : nat) : positive := Nat.iter k (Pos.mul 1024) 1%positive.


(** Every character of a string satisfies [p]. *)
Fixpoint every (p : ascii → bool) (s : string) : bool :=
  match s with
  | "" => true
  | String c s' => p c && every p s'
  end.

(** The probe settles the purpose before the node is looked at:
    container storage, an operating system or a boot flag was found. *)
Definition probe_decides (info : autoregister.detailed_info) : Prop :=
  (∃ lxd, autoregister.lxdInfo info = Some lxd ∧ autoregister.isLXD lxd = true) ∨
  autoregister.osInfo info ≠ [] ∨
  autoregister.bootable info = true.

(** The partitions of a scan that are not registered in [known]: what the
    "add" menu offers. *)
Definition unregistered_of (lsblk : option (list detect.blockdev))
    (known : list record) : list detect.drive :=
  filter (λ d, Some (JStr (detect.d_uuid d)) ∉ uuid_of <$> known)
    (filter (λ d, detect.d_type d = "part") (detect.detectDrives lsblk)).

(** The disk a choice of the disk prompt stands for: its device path
    without a trailing partition suffix, as the loop computes it. *)
Definition choice_key (c : string * string) : string :=
  js.strip_partition_suffix (snd c).

(** No key comes from the environment: the variable is unset or empty. *)
Definition no_env_key (e : claudeHelper.env) : Prop :=
  claudeHelper.ANTHROPIC_API_KEY e = None ∨ claudeHelper.ANTHROPIC_API_KEY e = Some "".

(** The configuration file can take a setting: it is absent, does not
    parse (and is started afresh) or holds an object. *)
Definition takes_settings (e : claudeHelper.env) : Prop :=
  match claudeHelper.config_file e with
  | None | Some claudeHelper.BadConfig | Some (claudeHelper.Config _) => True
  | Some (claudeHelper.ConfigPrimitive _) | Some (claudeHelper.ConfigArray _) => False
  end.

(** Two collections hold the same records in the same order, up to the
    value of last_seen. *)
Definition same_but_last_seen (ds ds' : list record) : Prop :=
  Forall2 (λ r r', ∀ key, key ≠ "last_seen" → r' !! key = r !! key) ds ds'.

(** The calls a client makes on the store, and a sequence of them run in
    order. *)
Inductive op :=
| Initialize
| Add (driveData : record)
| Touch (uuid : option jsval)
| Remove (uuid : option jsval).

Definition perform (clock : nat → string) (o : op) : M unit :=
  match o with
  | Initialize => storage.initStorage
  | Add driveData => storage.addDrive clock driveData ;; mret tt
  | Touch uuid => storage.updateLastSeen clock uuid
  | Remove uuid => storage.removeDrive uuid
  end.

Definition run (clock : nat → string) (ops : list op) : M unit :=
  forEach (perform clock) ops.

(** * Properties *)

(** ** The model at work *)

Example scan_skips_loop_devices :
  detect.detectDrives example_scan
  = [detect.entry sdb; detect.entry sdb1; detect.entry sdb2].
Proof. reflexivity. Qed.

Example scan_failure_is_empty : detect.detectDrives None = [].
Proof. reflexivity. Qed.

Example entry_of_partition :
  detect.entry sdb1
  = detect.Drive "sdb1" "1.0GB" "part" "/mnt/data" "ext4" "Unknown Model"
      "abc-123" "/dev/sdb1".
Proof. vm_compute. reflexivity. Qed.

Example basename_examples :
  js.basename "/mnt/data/" = "data" ∧ js.basename "/" = "" ∧
  js.basename "media" = "media".
Proof. repeat apply conj; reflexivity. Qed.

Example os_name_cleanup :
  js.substring0 20 (js.spaces_to_dash (js.remove_parens
    "Ubuntu 22.04.3 LTS (Jammy Jellyfish)")) = "Ubuntu-22.04.3-LTS-".
Proof. vm_compute. reflexivity. Qed.

Example parent_device_of_partition :
  js.strip_partition_suffix "/dev/mmcblk0p1" = "/dev/mmcblk0" ∧
  js.strip_partition_suffix "/dev/sdb12" = "/dev/sdb".
Proof. split; vm_compute; reflexivity. Qed.

Example labels_by_rule :
  autoregister.generateSmartLabel quiet_system usb_stick no_info = "usb" ∧
  autoregister.generateSmartLabel (system_with " MY  DISK " "")
    usb_stick_unmounted no_info = "MY-DISK" ∧
  autoregister.generateSmartLabel quiet_system usb_stick_unmounted no_info
  = "sdc1-75GB".
Proof. repeat apply conj; vm_compute; reflexivity. Qed.

Example first_run_creates_store :
  storage.getAllDrives fresh = Return (Records []) (World true (Some (Document [])) 0).
Proof. reflexivity. Qed.

Example file_without_drives :
  let w := World true (Some (Text (Data (NoArray None)))) 0 in
  storage.getAllDrives w = Return (NoArray None) w ∧
  storage.countDrives w = Throw TypeError w ∧
  storage.removeDrive (Some (JStr "abc-123")) w = Throw TypeError w.
Proof. repeat apply conj; reflexivity. Qed.

Example prototype_is_no_field :
  let r : record := <["uuid" := JStr "abc-123"]> ∅ in
  set_property "__proto__" (JStr "x") r = r ∧
  set_property "label" (JStr "x") r = <["label" := JStr "x"]> r.
Proof. split; reflexivity. Qed.

(** ** Running the store *)

Lemma initStorage_run w : storage.initStorage w = Return tt (initialized w).
Proof. destruct w as [d f t]; destruct d, f; reflexivity. Qed.

(** Case analysis on the backing file. *)
Ltac destruct_store w :=
  let d := fresh "dir" in
  let ds := fresh "ds" in
  let v := fresh "v" in
  let t := fresh "t" in
  destruct w as [d [[|[|[ds|v]]]|] t].

Lemma stored_initialized w : stored (initialized w) = stored w.
Proof. destruct_store w; reflexivity. Qed.

Lemma initialized_idem w : initialized (initialized w) = initialized w.
Proof. destruct w as [d [c|] t]; reflexivity. Qed.

Lemma listed_initialized w : listed (initialized w) = listed w.
Proof. destruct_store w; reflexivity. Qed.

Lemma listed_stored w : ¬ misshapen w → listed w = Records (stored w).
Proof. destruct_store w; cbn; tauto. Qed.

Lemma readable_not_misshapen w : readable w → ¬ misshapen w.
Proof. destruct_store w; cbn; tauto. Qed.

Lemma listed_readable w : readable w → listed w = Records (stored w).
Proof. intros Hr. by apply listed_stored, readable_not_misshapen. Qed.

(** Runs a store operation up to its first choice on the stored data. *)
Ltac run_store :=
  unfold storage.getAllDrives, storage.getDriveByUUID, storage.addDrive,
    storage.updateLastSeen, storage.updateDriveField, storage.removeDrive,
    mbind, M_bind, try_catch;
  rewrite initStorage_run; cbn.

Lemma getAllDrives_any w :
  storage.getAllDrives w = Return (listed w) (initialized w).
Proof. destruct_store w; run_store; reflexivity. Qed.

Lemma getAllDrives_shaped w :
  ¬ misshapen w →
  storage.getAllDrives w = Return (Records (stored w)) (initialized w).
Proof. intros Hm. by rewrite getAllDrives_any, listed_stored. Qed.

Lemma getDriveByUUID_shaped uuid w :
  ¬ misshapen w →
  storage.getDriveByUUID uuid w =
  Return (find (λ d, strict_eq (uuid_of d) uuid) (stored w)) (initialized w).
Proof.
  intros Hm. unfold storage.getDriveByUUID, mbind, M_bind.
  by rewrite getAllDrives_shaped.
Qed.

Lemma getAllDrives_run w :
  readable w →
  storage.getAllDrives w = Return (Records (stored w)) (initialized w).
Proof. intros Hr. by apply getAllDrives_shaped, readable_not_misshapen. Qed.

Lemma getDriveByUUID_run uuid w :
  readable w →
  storage.getDriveByUUID uuid w =
  Return (find (λ d, strict_eq (uuid_of d) uuid) (stored w)) (initialized w).
Proof. intros Hr. by apply getDriveByUUID_shaped, readable_not_misshapen. Qed.

Lemma getDriveByUUID_misshapen uuid w :
  misshapen w → storage.getDriveByUUID uuid w = Throw TypeError (initialized w).
Proof.
  intros Hm. unfold storage.getDriveByUUID, mbind, M_bind.
  rewrite getAllDrives_any. destruct_store w; by try destruct Hm.
Qed.

Lemma countDrives_shaped w :
  ¬ misshapen w →
  storage.countDrives w = Return (Some (length (stored w))) (initialized w).
Proof.
  intros Hm. unfold storage.countDrives, mbind, M_bind.
  by rewrite getAllDrives_shaped.
Qed.

Lemma addDrive_run clock driveData w :
  readable w →
  storage.addDrive clock driveData w =
  if existsb (λ d, strict_eq (uuid_of d) (uuid_of driveData)) (stored w)
  then Return false (initialized w)
  else Return true
         (written (stored w ++ [stamp (clock (ticks w)) driveData]) 1 w).
Proof.
  intros Hr. destruct_store w; try (by destruct Hr);
    run_store; try destruct (existsb _ _); reflexivity.
Qed.

Lemma updateLastSeen_run clock uuid w :
  readable w →
  storage.updateLastSeen clock uuid w =
  match list_find (λ d, uuid_of d = uuid) (stored w) with
  | Some (i, drive) =>
      Return tt
        (written (<[i := <["last_seen" := JStr (clock (ticks w))]> drive]> (stored w)) 1 w)
  | None => Return tt (initialized w)
  end.
Proof.
  intros Hr. destruct_store w; try (by destruct Hr);
    run_store; try destruct (list_find _ _) as [[i drive]|]; reflexivity.
Qed.

Lemma updateDriveField_run uuid field value w :
  readable w →
  storage.updateDriveField uuid field value w =
  match list_find (λ d, uuid_of d = uuid) (stored w) with
  | Some (i, drive) =>
      Return true (written (<[i := set_property field value drive]> (stored w)) 0 w)
  | None => Return false (initialized w)
  end.
Proof.
  intros Hr. destruct_store w; try (by destruct Hr);
    run_store; try destruct (list_find _ _) as [[i drive]|]; reflexivity.
Qed.

Lemma removeDrive_run uuid w :
  readable w →
  storage.removeDrive uuid w =
  Return tt (written (filter (λ d, uuid_of d ≠ uuid) (stored w)) 0 w).
Proof.
  intros Hr. destruct_store w; try (by destruct Hr);
    run_store; reflexivity.
Qed.

Lemma refusal_readable w : refusal w = None ↔ readable w.
Proof. destruct_store w; cbn; split; (done || tauto). Qed.

Lemma mutators_refused clock driveData uuid field value w e :
  refusal w = Some e →
  storage.addDrive clock driveData w = Throw e (initialized w) ∧
  storage.updateLastSeen clock uuid w = Throw e (initialized w) ∧
  storage.updateDriveField uuid field value w = Throw e (initialized w) ∧
  storage.removeDrive uuid w = Throw e (initialized w).
Proof.
  destruct_store w; cbn; intros [= <-];
    repeat apply conj; run_store; destruct dir; reflexivity.
Qed.

Lemma readable_initialized w : readable w → readable (initialized w).
Proof. destruct_store w; cbn; tauto. Qed.

Lemma readable_written ds n w : readable (written ds n w).
Proof. exact I. Qed.

Lemma stored_written ds n w : stored (written ds n w) = ds.
Proof. reflexivity. Qed.

(** Discharges the side condition that a store can be read. *)
Ltac solve_readable :=
  solve [ assumption | apply readable_written
        | apply readable_initialized; assumption ].

Lemma uuid_of_stamp ts r : uuid_of (stamp ts r) = uuid_of r.
Proof. unfold uuid_of, stamp. by rewrite !lookup_insert_ne. Qed.

Lemma stamp_first_seen ts r : stamp ts r !! "first_seen" = Some (JStr ts).
Proof. unfold stamp. rewrite lookup_insert_ne; [|done]. apply lookup_insert_eq. Qed.

Lemma stamp_last_seen ts r : stamp ts r !! "last_seen" = Some (JStr ts).
Proof. unfold stamp. apply lookup_insert_eq. Qed.

Lemma stamp_other ts r field :
  field ≠ "first_seen" → field ≠ "last_seen" → stamp ts r !! field = r !! field.
Proof. intros H1 H2. unfold stamp. by rewrite !lookup_insert_ne. Qed.

Lemma strict_eq_true a b : strict_eq a b = true ↔ a = b.
Proof. unfold strict_eq. apply bool_decide_eq_true. Qed.

Lemma existsb_uuid u (ds : list record) :
  existsb (λ d, strict_eq (uuid_of d) u) ds = true ↔ u ∈ uuid_of <$> ds.
Proof.
  rewrite existsb_exists, list_elem_of_fmap. split.
  - intros (d & Hin & Heq). apply strict_eq_true in Heq.
    exists d. split; [done | by apply list_elem_of_In].
  - intros (d & -> & Hin). exists d. split; [by apply list_elem_of_In|].
    by apply strict_eq_true.
Qed.

Lemma existsb_uuid_false u (ds : list record) :
  existsb (λ d, strict_eq (uuid_of d) u) ds = false ↔ u ∉ uuid_of <$> ds.
Proof. rewrite <- existsb_uuid. by destruct (existsb _ ds). Qed.

Lemma find_none_uuid u (ds : list record) :
  u ∉ uuid_of <$> ds → find (λ d, strict_eq (uuid_of d) u) ds = None.
Proof.
  induction ds as [|d ds IH]; [done|]. cbn. rewrite not_elem_of_cons.
  intros [Hne Hnin]. destruct (strict_eq (uuid_of d) u) eqn:E.
  - apply strict_eq_true in E. congruence.
  - by apply IH.
Qed.

(** In a store without duplicate uuids, looking a record up by its uuid
    finds that very record. *)
Lemma find_by_uuid (ds : list record) i r :
  NoDup (uuid_of <$> ds) → ds !! i = Some r →
  find (λ d, strict_eq (uuid_of d) (uuid_of r)) ds = Some r.
Proof.
  revert i. induction ds as [|d ds IH]; intros i Hnd Hi; [done|].
  cbn in Hnd. apply NoDup_cons in Hnd as [Hnin Hnd]. cbn.
  destruct i as [|i]; cbn in Hi.
  - injection Hi as ->. by rewrite (proj2 (strict_eq_true _ _) eq_refl).
  - destruct (strict_eq (uuid_of d) (uuid_of r)) eqn:E.
    + apply strict_eq_true in E. destruct Hnin. rewrite E.
      apply list_elem_of_fmap. exists r. split; [done|].
      by eapply list_elem_of_lookup_2.
    + by eapply IH.
Qed.

Lemma list_find_uuid_None u (ds : list record) :
  list_find (λ d, uuid_of d = u) ds = None ↔ u ∉ uuid_of <$> ds.
Proof.
  rewrite list_find_None, Forall_forall, list_elem_of_fmap. split.
  - intros H (d & -> & Hin). by apply (H d).
  - intros H d Hin Heq. apply H. by exists d.
Qed.

(** Touching a record changes no uuid. *)
Lemma uuids_touch (ds : list record) i drive ts :
  ds !! i = Some drive →
  uuid_of <$> <[i := <["last_seen" := JStr ts]> drive]> ds = uuid_of <$> ds.
Proof.
  intros Hi. rewrite list_fmap_insert. apply list_insert_id.
  rewrite list_lookup_fmap, Hi. cbn. unfold uuid_of. by rewrite lookup_insert_ne.
Qed.

Lemma uuids_remove u (ds : list record) :
  NoDup (uuid_of <$> ds) → NoDup (uuid_of <$> filter (λ d, uuid_of d ≠ u) ds).
Proof.
  intros Hnd. eapply sublist_NoDup; [exact Hnd|].
  apply fmap_sublist, sublist_filter.
Qed.

Lemma written_ticks ds n w : ticks (written ds n w) = n + ticks w.
Proof. reflexivity. Qed.

Lemma getAllDrives_written ds n w :
  storage.getAllDrives (written ds n w) = Return (Records ds) (written ds n w).
Proof. reflexivity. Qed.

Lemma perform_keeps_distinct clock o w :
  distinct_uuids w → ∃ w', perform clock o w = Return tt w' ∧ distinct_uuids w'.
Proof.
  intros [Hr Hnd]. destruct o as [|driveData|uuid|uuid]; cbn.
  - rewrite initStorage_run. eexists; split; [done|]. split.
    + by apply readable_initialized.
    + by rewrite stored_initialized.
  - unfold mbind, M_bind. rewrite addDrive_run by done.
    destruct (existsb _ _) eqn:E; eexists; (split; [reflexivity|]).
    + split; [by apply readable_initialized | by rewrite stored_initialized].
    + split; [apply readable_written|]. rewrite stored_written, fmap_app.
      apply NoDup_app. split; [done|]. split.
      * cbn. intros u Hu. rewrite list_elem_of_singleton, uuid_of_stamp.
        intros ->. by apply existsb_uuid_false in E.
      * apply NoDup_singleton.
  - rewrite updateLastSeen_run by done.
    destruct (list_find _ _) as [[i drive]|] eqn:E; eexists; (split; [done|]).
    + split; [apply readable_written|]. rewrite stored_written.
      apply list_find_Some in E as (Hi & _ & _). by rewrite uuids_touch.
    + split; [by apply readable_initialized | by rewrite stored_initialized].
  - rewrite removeDrive_run by done. eexists; split; [done|].
    split; [apply readable_written|]. rewrite stored_written. by apply uuids_remove.
Qed.

Lemma run_keeps_distinct clock ops w :
  distinct_uuids w → ∃ w', run clock ops w = Return tt w' ∧ distinct_uuids w'.
Proof.
  revert w. induction ops as [|o ops IH]; intros w Hw.
  - by exists w.
  - destruct (perform_keeps_distinct clock o w Hw) as (w1 & Ho & Hw1).
    destruct (IH w1 Hw1) as (w2 & Hrun & Hw2).
    exists w2. split; [|done].
    unfold run in *. cbn. unfold mbind, M_bind. by rewrite Ho.
Qed.

(** ** The registry store *)

(** C1 (as the code has it). On a backing file that does not parse,
    getAllDrives returns the empty list and getDriveByUUID finds nothing,
    but addDrive, updateLastSeen, updateDriveField and removeDrive parse
    the file outside any [try] and raise the parser's SyntaxError. *)
Theorem corrupt_file_reads_empty_mutators_throw
    clock (w : world) (driveData : record) (uuid : option jsval)
    (field : string) (value : jsval) :
  drives_file w = Some Garbled →
  storage.getAllDrives w = Return (Records []) (initialized w) ∧
  storage.getDriveByUUID uuid w = Return None (initialized w) ∧
  storage.addDrive clock driveData w = Throw SyntaxError (initialized w) ∧
  storage.updateLastSeen clock uuid w = Throw SyntaxError (initialized w) ∧
  storage.updateDriveField uuid field value w = Throw SyntaxError (initialized w) ∧
  storage.removeDrive uuid w = Throw SyntaxError (initialized w).
Proof.
  intros Hg. destruct w as [d f t]. cbn in Hg. subst f.
  destruct d; repeat apply conj; reflexivity.
Qed.

Lemma corrupt_file_reads_empty_mutators_throw_witness :
  let w := World true (Some Garbled) 0 in
  let r : record := <["uuid" := JStr "abc-123"]> ∅ in
  storage.getAllDrives w = Return (Records []) (initialized w) ∧
  storage.getDriveByUUID (Some (JStr "abc-123")) w = Return None (initialized w) ∧
  storage.addDrive frozen_clock r w = Throw SyntaxError (initialized w) ∧
  storage.updateLastSeen frozen_clock (Some (JStr "abc-123")) w
    = Throw SyntaxError (initialized w) ∧
  storage.updateDriveField (Some (JStr "abc-123")) "label" (JStr "Test") w
    = Throw SyntaxError (initialized w) ∧
  storage.removeDrive (Some (JStr "abc-123")) w = Throw SyntaxError (initialized w).
Proof.
  intros w r.
  apply (corrupt_file_reads_empty_mutators_throw frozen_clock w r
           (Some (JStr "abc-123")) "label" (JStr "Test")).
  reflexivity.
Defined.

(** C4 (as the code has it). addDrive of a record whose uuid is already
    present returns false and leaves the collection as it was, on every
    state of the store.  When the uuid is not present, addDrive returns
    true and appends the record with first_seen and last_seen both set to
    the clock read of the call if the backing file is absent or holds a
    document; but on a backing file that does not parse, where no uuid is
    present (getDriveByUUID finds none), it raises the parser's
    SyntaxError instead of adding, and on a file that parses to a value
    without a drives array it raises a TypeError. *)
Theorem addDrive_rejects_duplicate_else_stamps
    clock (driveData : record) (w : world) :
  (uuid_of driveData ∈ uuid_of <$> stored w →
   ∃ w', storage.addDrive clock driveData w = Return false w' ∧
         storage.getAllDrives w' = Return (Records (stored w)) w') ∧
  (readable w → uuid_of driveData ∉ uuid_of <$> stored w →
   ∃ w' r, storage.addDrive clock driveData w = Return true w' ∧
           storage.getAllDrives w' = Return (Records (stored w ++ [r])) w' ∧
           r !! "first_seen" = Some (JStr (clock (ticks w))) ∧
           r !! "last_seen" = Some (JStr (clock (ticks w))) ∧
           ∀ field, field ≠ "first_seen" → field ≠ "last_seen" →
                    r !! field = driveData !! field) ∧
  (drives_file w = Some Garbled →
   (uuid_of driveData ∉ uuid_of <$> stored w) ∧
   storage.getDriveByUUID (uuid_of driveData) w = Return None (initialized w) ∧
   storage.addDrive clock driveData w = Throw SyntaxError (initialized w)) ∧
  (drives_file w = Some (Text Null) ∨ misshapen w →
   (uuid_of driveData ∉ uuid_of <$> stored w) ∧
   storage.addDrive clock driveData w = Throw TypeError (initialized w)).
Proof.
  split; [|split; [|split]].
  - intros Hu.
    assert (Hr : readable w).
    { destruct_store w; cbn in *; by try apply elem_of_nil in Hu. }
    exists (initialized w). rewrite addDrive_run by done.
    rewrite (proj2 (existsb_uuid _ _) Hu). split; [done|].
    rewrite getAllDrives_run by solve_readable.
    by rewrite stored_initialized, initialized_idem.
  - intros Hr Hu. eexists _, (stamp (clock (ticks w)) driveData).
    rewrite addDrive_run by done.
    rewrite (proj2 (existsb_uuid_false _ _) Hu).
    split; [reflexivity|]. split; [apply getAllDrives_written|].
    split; [apply stamp_first_seen|]. split; [apply stamp_last_seen|].
    apply stamp_other.
  - intros Hg.
    destruct (mutators_refused clock driveData None "" JNull w SyntaxError)
      as (Hadd & _); [unfold refusal; by rewrite Hg|].
    split; [unfold stored; rewrite Hg; apply not_elem_of_nil|].
    split; [|exact Hadd].
    rewrite getDriveByUUID_shaped; [|unfold misshapen; rewrite Hg; intros []].
    unfold stored. by rewrite Hg.
  - intros Hn.
    assert (Hs : stored w = [] ∧ refusal w = Some TypeError).
    { destruct Hn as [Hn | Hn]; [unfold stored, refusal; by rewrite Hn|].
      destruct_store w; by try destruct Hn. }
    destruct Hs as [Hs Href].
    destruct (mutators_refused clock driveData None "" JNull w TypeError Href)
      as (Hadd & _).
    split; [rewrite Hs; apply not_elem_of_nil | exact Hadd].
Qed.

Lemma addDrive_rejects_duplicate_else_stamps_witness :
  let r : record := <["uuid" := JStr "abc-123"]> (<["label" := JStr "Test"]> ∅) in
  let w := written [stamp "2023-12-31T00:00:00.000Z" r] 0 fresh in
  let corrupt := World true (Some Garbled) 0 in
  let empty_object := World true (Some (Text (Data (NoArray None)))) 0 in
  (uuid_of r ∈ uuid_of <$> stored w ∧
   ∃ w', storage.addDrive frozen_clock r w = Return false w' ∧
         storage.getAllDrives w' = Return (Records (stored w)) w') ∧
  (readable fresh ∧ (uuid_of r ∉ uuid_of <$> stored fresh) ∧
   ∃ w' r', storage.addDrive frozen_clock r fresh = Return true w' ∧
            storage.getAllDrives w' = Return (Records (stored fresh ++ [r'])) w' ∧
            r' !! "first_seen" = Some (JStr (frozen_clock 0)) ∧
            r' !! "last_seen" = Some (JStr (frozen_clock 0)) ∧
            ∀ field, field ≠ "first_seen" → field ≠ "last_seen" →
                     r' !! field = r !! field) ∧
  (drives_file corrupt = Some Garbled ∧
   (uuid_of r ∉ uuid_of <$> stored corrupt) ∧
   storage.getDriveByUUID (uuid_of r) corrupt = Return None corrupt ∧
   storage.addDrive frozen_clock r corrupt = Throw SyntaxError corrupt) ∧
  (misshapen empty_object ∧
   storage.addDrive frozen_clock r empty_object = Throw TypeError empty_object).
Proof.
  intros r w corrupt empty_object.
  assert (Hin : uuid_of r ∈ uuid_of <$> stored w) by (vm_compute; left).
  assert (Hnin : uuid_of r ∉ uuid_of <$> stored fresh) by apply not_elem_of_nil.
  split; [|split; [|split]].
  - split; [exact Hin|].
    destruct (addDrive_rejects_duplicate_else_stamps frozen_clock r w) as (Hdup & _).
    exact (Hdup Hin).
  - split; [exact I|]. split; [exact Hnin|].
    destruct (addDrive_rejects_duplicate_else_stamps frozen_clock r fresh)
      as (_ & Hnew & _).
    exact (Hnew I Hnin).
  - split; [reflexivity|].
    destruct (addDrive_rejects_duplicate_else_stamps frozen_clock r corrupt)
      as (_ & _ & Hbad & _).
    exact (Hbad eq_refl).
  - split; [exact I|].
    destruct (addDrive_rejects_duplicate_else_stamps frozen_clock r empty_object)
      as (_ & _ & _ & Hno).
    destruct (Hno (or_intror I)) as (_ & Hadd). exact Hadd.
Defined.

Lemma uuids_imap_stamp (f : nat → string) (rs : list record) :
  uuid_of <$> imap (λ i r, stamp (f i) r) rs = uuid_of <$> rs.
Proof.
  revert f. induction rs as [|r rs IH]; intros f; [done|].
  cbn. rewrite uuid_of_stamp. f_equal. apply (IH (f ∘ S)).
Qed.

Lemma mapM_cons_run {A B} (f : A → M B) x l w :
  mapM f (x :: l) w =
  match f x w with
  | Return y w' =>
      match mapM f l w' with
      | Return k w'' => Return (y :: k) w''
      | Throw e w'' => Throw e w''
      end
  | Throw e w' => Throw e w'
  end.
Proof. reflexivity. Qed.

Lemma mapM_addDrive clock (rs : list record) (w : world) :
  readable w → NoDup (uuid_of <$> (stored w ++ rs)) →
  ∃ w1, mapM (storage.addDrive clock) rs w
          = Return (replicate (length rs) true) w1 ∧
        readable w1 ∧
        stored w1 = stored w ++ imap (λ i r, stamp (clock (ticks w + i)) r) rs.
Proof.
  revert w. induction rs as [|r rs IH]; intros w Hr Hnd.
  - exists w. cbn. by rewrite app_nil_r.
  - assert (Hfresh : uuid_of r ∉ uuid_of <$> stored w).
    { rewrite fmap_app in Hnd. apply NoDup_app in Hnd as (_ & Hdisj & Hnd).
      intros Hin. apply (Hdisj _ Hin). cbn. left. }
    set (w' := written (stored w ++ [stamp (clock (ticks w)) r]) 1 w).
    destruct (IH w') as (w1 & Hrun & Hr1 & Hs1).
    { apply readable_written. }
    { unfold w'. rewrite stored_written, <- app_assoc. cbn.
      rewrite !fmap_app in *. cbn in *. by rewrite uuid_of_stamp. }
    exists w1. split; [|split; [done|]].
    + rewrite mapM_cons_run, addDrive_run by done.
      rewrite (proj2 (existsb_uuid_false _ _) Hfresh). fold w'.
      by rewrite Hrun.
    + rewrite Hs1. unfold w'. rewrite stored_written, written_ticks, <- app_assoc.
      cbn. rewrite Nat.add_0_r. do 2 f_equal.
      apply imap_ext. intros i x _. cbn. do 2 f_equal. lia.
Qed.

(** C3. Adding records with pairwise distinct uuids to an empty store
    succeeds for each of them; afterwards getAllDrives returns one record
    per call, in call order, each is found by getDriveByUUID under its
    uuid, and each carries every field of the record that was passed,
    the fields outside the schema included, next to the two time stamps
    of its call. *)
Theorem adds_kept_in_call_order clock (rs : list record) (w : world) :
  empty_store w → NoDup (uuid_of <$> rs) →
  ∃ w1 ds w2,
    mapM (storage.addDrive clock) rs w = Return (replicate (length rs) true) w1 ∧
    storage.getAllDrives w1 = Return (Records ds) w2 ∧
    length ds = length rs ∧
    ∀ i r, rs !! i = Some r →
      ∃ r', ds !! i = Some r' ∧
            storage.getDriveByUUID (uuid_of r) w1 = Return (Some r') w2 ∧
            (∀ field, field ≠ "first_seen" → field ≠ "last_seen" →
                      r' !! field = r !! field) ∧
            r' !! "first_seen" = Some (JStr (clock (ticks w + i))) ∧
            r' !! "last_seen" = Some (JStr (clock (ticks w + i))).
Proof.
  intros [Hr He] Hnd.
  destruct (mapM_addDrive clock rs w Hr) as (w1 & Hrun & Hr1 & Hs1).
  { by rewrite He. }
  rewrite He in Hs1. cbn in Hs1.
  exists w1, (stored w1), (initialized w1).
  split; [done|]. split; [by apply getAllDrives_run|].
  split; [by rewrite Hs1, length_imap|].
  intros i r Hi. exists (stamp (clock (ticks w + i)) r).
  assert (Hds : stored w1 !! i = Some (stamp (clock (ticks w + i)) r)).
  { by rewrite Hs1, list_lookup_imap, Hi. }
  split; [done|]. split.
  - rewrite getDriveByUUID_run by done. f_equal.
    rewrite <- (uuid_of_stamp (clock (ticks w + i)) r).
    apply (find_by_uuid _ i); [|done].
    by rewrite Hs1, (uuids_imap_stamp (λ i, clock (ticks w + i))).
  - split; [apply stamp_other|].
    split; [apply stamp_first_seen | apply stamp_last_seen].
Qed.

Lemma adds_kept_in_call_order_witness :
  let a : record :=
    <["uuid" := JStr "abc-123"]> (<["label" := JStr "Test"]>
    (<["notes" := JStr "blue case"]> ∅)) in
  let b : record :=
    <["uuid" := JStr "def-456"]> (<["label" := JStr "Media"]> ∅) in
  empty_store fresh ∧ NoDup (uuid_of <$> [a; b]) ∧
  ∃ w1 ds w2,
    mapM (storage.addDrive frozen_clock) [a; b] fresh = Return [true; true] w1 ∧
    storage.getAllDrives w1 = Return (Records ds) w2 ∧
    length ds = 2 ∧
    ∀ i r, [a; b] !! i = Some r →
      ∃ r', ds !! i = Some r' ∧
            storage.getDriveByUUID (uuid_of r) w1 = Return (Some r') w2 ∧
            (∀ field, field ≠ "first_seen" → field ≠ "last_seen" →
                      r' !! field = r !! field) ∧
            r' !! "first_seen" = Some (JStr (frozen_clock (0 + i))) ∧
            r' !! "last_seen" = Some (JStr (frozen_clock (0 + i))).
Proof.
  intros a b.
  assert (He : empty_store fresh) by (split; done).
  assert (Hnd : NoDup (uuid_of <$> [a; b])).
  { refine (bool_decide_unpack _ _). by vm_compute. }
  split; [exact He|]. split; [exact Hnd|].
  exact (adds_kept_in_call_order frozen_clock [a; b] fresh He Hnd).
Defined.

(** C9. Starting from an empty store, after any sequence of initStorage,
    addDrive, updateLastSeen and removeDrive calls, every call has
    returned and the records getAllDrives returns have pairwise distinct
    uuids. *)
Theorem uuids_stay_pairwise_distinct clock (ops : list op) (w : world) :
  empty_store w →
  ∃ w1 ds w2,
    run clock ops w = Return tt w1 ∧
    storage.getAllDrives w1 = Return (Records ds) w2 ∧
    NoDup (uuid_of <$> ds).
Proof.
  intros [Hr He].
  destruct (run_keeps_distinct clock ops w) as (w1 & Hrun & Hr1 & Hnd).
  { split; [done|]. rewrite He. constructor. }
  exists w1, (stored w1), (initialized w1).
  split; [done|]. split; [by apply getAllDrives_run | done].
Qed.

Lemma uuids_stay_pairwise_distinct_witness :
  let a : record := <["uuid" := JStr "abc-123"]> (<["label" := JStr "Test"]> ∅) in
  let a' : record := <["uuid" := JStr "abc-123"]> (<["label" := JStr "Again"]> ∅) in
  let ops := [Initialize; Add a; Add a'; Touch (Some (JStr "abc-123"));
              Remove (Some (JStr "zzz")); Add a'] in
  empty_store fresh ∧
  ∃ w1 ds w2,
    run frozen_clock ops fresh = Return tt w1 ∧
    storage.getAllDrives w1 = Return (Records ds) w2 ∧
    NoDup (uuid_of <$> ds).
Proof.
  intros a a' ops.
  assert (He : empty_store fresh) by (split; done).
  split; [exact He|].
  exact (uuids_stay_pairwise_distinct frozen_clock ops fresh He).
Defined.

(** ** The scanner *)

(** Brings nested appends and conses to right-nested form. *)
Ltac reassoc := repeat (progress (cbn; rewrite <- ?app_assoc)).

(** Induction on a device tree, with the hypothesis for every child. *)
Lemma blockdev_tree_ind (P : detect.blockdev → Prop) :
  (∀ name size type mountpoint fstype model uuid children,
     Forall P children →
     P (detect.BlockDev name size type mountpoint fstype model uuid children)) →
  ∀ device, P device.
Proof.
  intros step. fix IH 1. intros [name size type mountpoint fstype model uuid children].
  apply step. induction children as [|c cs IHcs]; constructor; [apply IH | exact IHcs].
Qed.

Lemma fold_processDrive_app (devices : list detect.blockdev) (drives : list detect.drive) :
  Forall (λ device, ∀ drives,
            detect.processDrive device drives = drives ++ emitted device) devices →
  fold_left (λ drives device, detect.processDrive device drives) devices drives
  = drives ++ mjoin (emitted <$> devices).
Proof.
  intros H. revert drives. induction H as [|device devices Hd _ IH]; intros drives; cbn.
  - by rewrite app_nil_r.
  - by rewrite IH, Hd, <- app_assoc.
Qed.

Lemma processDrive_app (device : detect.blockdev) :
  ∀ drives, detect.processDrive device drives = drives ++ emitted device.
Proof.
  induction device as [name size type mp fs model uuid children IH]
    using blockdev_tree_ind.
  intros drives. unfold emitted. cbn.
  destruct (detect.tracked type); [|by rewrite app_nil_r].
  rewrite !(fold_processDrive_app _ _ IH). cbn. by rewrite <- app_assoc.
Qed.

(** A tracked device is pushed first, then its children in order. *)
Lemma emitted_tracked (device : detect.blockdev) :
  detect.tracked (detect.bd_type device) = true →
  emitted device
  = detect.entry device :: mjoin (emitted <$> detect.bd_children device).
Proof.
  intros Ht. unfold emitted at 1. destruct device as [name size type mp fs model uuid children].
  cbn in *. rewrite Ht. rewrite fold_processDrive_app; [done|].
  apply Forall_forall. intros c _. apply processDrive_app.
Qed.

Lemma detectDrives_flat (blockdevices : list detect.blockdev) :
  detect.detectDrives (Some blockdevices) = mjoin (emitted <$> blockdevices).
Proof.
  cbn. rewrite fold_processDrive_app; [done|].
  apply Forall_forall. intros c _. apply processDrive_app.
Qed.

Lemma mjoin_emitted_elem (devices : list detect.blockdev) (device : detect.blockdev) :
  device ∈ devices →
  ∃ before after, mjoin (emitted <$> devices) = before ++ emitted device ++ after.
Proof.
  intros (l1 & l2 & ->)%list_elem_of_split.
  exists (mjoin (emitted <$> l1)), (mjoin (emitted <$> l2)).
  by rewrite fmap_app, join_app.
Qed.

Lemma visited_contiguous (blockdevices : list detect.blockdev) (device : detect.blockdev) :
  visited blockdevices device →
  ∃ before after,
    detect.detectDrives (Some blockdevices) = before ++ emitted device ++ after.
Proof.
  induction 1 as [device Hin | parent child Hv IH Ht Hc].
  - rewrite detectDrives_flat. by apply mjoin_emitted_elem.
  - destruct IH as (b & a & ->).
    destruct (mjoin_emitted_elem _ _ Hc) as (b' & a' & Hj).
    rewrite (emitted_tracked parent Ht), Hj.
    exists (b ++ detect.entry parent :: b'), (a' ++ a).
    by reassoc.
Qed.

(** C10. In the flat list of a scan, whenever a tracked device (a disk)
    has a tracked child (a partition) and the traversal reaches it, the
    entry of the device stands before the entry of the child; the entries
    of the child's own subtree follow the child's entry directly. *)
Theorem partition_after_parent
    (blockdevices : list detect.blockdev) (parent child : detect.blockdev) :
  visited blockdevices parent →
  detect.tracked (detect.bd_type parent) = true →
  child ∈ detect.bd_children parent →
  detect.tracked (detect.bd_type child) = true →
  ∃ before between after,
    detect.detectDrives (Some blockdevices)
    = before ++ detect.entry parent :: between ++ detect.entry child :: after.
Proof.
  intros Hv Htp Hc Htc.
  destruct (visited_contiguous _ _ Hv) as (b & a & ->).
  destruct (mjoin_emitted_elem _ _ Hc) as (b' & a' & Hj).
  rewrite (emitted_tracked parent Htp), Hj, (emitted_tracked child Htc).
  exists b, b', (mjoin (emitted <$> detect.bd_children child) ++ a' ++ a).
  by reassoc.
Qed.

Lemma partition_after_parent_witness :
  ∃ before between after,
    detect.detectDrives example_scan
    = before ++ detect.entry sdb :: between ++ detect.entry sdb2 :: after.
Proof.
  apply (partition_after_parent [loop0; sdb] sdb sdb2).
  - apply visited_top. right. left.
  - reflexivity.
  - cbn. right. left.
  - reflexivity.
Defined.

(** The loop of formatSize stops on the first rung whose size is below
    1024, or on the last unit. *)
Lemma ladder_rung (rest : list string) :
  ∀ (size : Q) (u : string),
  ∃ k, (k ≤ length rest)%nat ∧
       detect.ladder size u rest = (rung size k, nth k (u :: rest) "") ∧
       ((k < length rest)%nat → Qle_bool 1024 (rung size k) = false) ∧
       (∀ j, (j < k)%nat → Qle_bool 1024 (rung size j) = true).
Proof.
  induction rest as [|next rest IH]; intros size u.
  - exists 0%nat. cbn. repeat split; intros; lia.
  - cbn [detect.ladder]. destruct (Qle_bool 1024 size) eqn:E.
    + destruct (IH (size / 1024)%Q next) as (k & Hk & Hl & Hstop & Hgo).
      exists (S k). unfold rung in *. rewrite Nat.iter_succ_r.
      split; [cbn; lia|]. split; [exact Hl|]. split.
      * intros Hlt. apply Hstop. cbn in Hlt. lia.
      * intros [|j] Hj; [exact E|]. rewrite Nat.iter_succ_r. apply Hgo. lia.
    + exists 0%nat. unfold rung. cbn [Nat.iter length nth].
      repeat split; intros; first [lia | exact E].
Qed.

Lemma rung_value (b : Z) (k : nat) : (rung (inject_Z b) k == b # pow1024 k)%Q.
Proof.
  induction k as [|k IH]; [reflexivity|].
  change (rung (inject_Z b) (S k)) with (rung (inject_Z b) k / 1024)%Q.
  change (pow1024 (S k)) with (1024 * pow1024 k)%positive.
  setoid_rewrite IH.
  unfold Qeq, Qdiv, Qmult, Qinv. cbn. rewrite !Pos2Z.inj_mul. lia.
Qed.

Lemma pow1024_Z (k : nat) : Zpos (pow1024 k) = (1024 ^ Z.of_nat k)%Z.
Proof.
  induction k as [|k IH]; [reflexivity|].
  change (pow1024 (S k)) with (1024 * pow1024 k)%positive.
  rewrite Pos2Z.inj_mul, IH.
  rewrite Nat2Z.inj_succ, Z.pow_succ_r by lia. reflexivity.
Qed.

Lemma Qle_bool_rung (b : Z) (k : nat) :
  Qle_bool 1024 (rung (inject_Z b) k) = (1024 ^ Z.of_nat (S k) <=? b)%Z.
Proof.
  apply eq_true_iff_eq. rewrite Qle_bool_iff, rung_value, Z.leb_le.
  unfold Qle. cbn [Qnum Qden]. rewrite pow1024_Z.
  rewrite Nat2Z.inj_succ, Z.pow_succ_r by lia. lia.
Qed.

Lemma toFixed1_rung (b : Z) (k : nat) :
  detect.toFixed1 (rung (inject_Z b) k) =
  let n := ((20 * b + 1024 ^ Z.of_nat k) / (2 * 1024 ^ Z.of_nat k))%Z in
  pretty (n / 10)%Z +:+ "." +:+ pretty (n mod 10)%Z.
Proof.
  unfold detect.toFixed1. rewrite rung_value.
  unfold Qfloor, Qplus, Qmult. cbn [Qnum Qden].
  rewrite !Pos2Z.inj_mul, !pow1024_Z. cbn zeta.
  replace (b * 10 * 2 + 1 * (1024 ^ Z.of_nat k * 1))%Z
    with (20 * b + 1024 ^ Z.of_nat k)%Z by lia.
  replace (1024 ^ Z.of_nat k * 1 * 2)%Z with (2 * 1024 ^ Z.of_nat k)%Z by lia.
  reflexivity.
Qed.

(** C8. formatSize divides by 1024 up the ladder B, KB, MB, GB, TB: it
    stops at the first unit for which the size is below 1024 (or at TB),
    and prints the size divided by that power of 1024, rounded to one
    decimal, before the unit.  So 0 gives "0.0B", 1536 gives "1.5KB" and
    1073741824 gives "1.0GB". *)
Theorem formatSize_ladder_one_decimal :
  (∀ bytes : N, ∃ (k : nat) (unit : string),
     detect.units !! k = Some unit ∧
     (∀ j, (j < k)%nat → (1024 ^ Z.of_nat (S j) ≤ Z.of_N bytes)%Z) ∧
     ((S k < length detect.units)%nat → (Z.of_N bytes < 1024 ^ Z.of_nat (S k))%Z) ∧
     let n := ((20 * Z.of_N bytes + 1024 ^ Z.of_nat k)
               / (2 * 1024 ^ Z.of_nat k))%Z in
     detect.formatSize bytes
     = (pretty (n / 10)%Z +:+ "." +:+ pretty (n mod 10)%Z) +:+ unit) ∧
  detect.formatSize 0 = "0.0B" ∧
  detect.formatSize 1536 = "1.5KB" ∧
  detect.formatSize 1073741824 = "1.0GB".
Proof.
  split; [|repeat apply conj; vm_compute; reflexivity].
  intros bytes. unfold detect.formatSize, detect.units.
  destruct (ladder_rung ["KB"; "MB"; "GB"; "TB"] (inject_Z (Z.of_N bytes)) "B")
    as (k & Hk & Hl & Hstop & Hgo).
  rewrite Hl. exists k, (nth k ["B"; "KB"; "MB"; "GB"; "TB"] "").
  split; [|split; [|split]].
  - cbn in Hk. do 5 (destruct k as [|k]; [reflexivity|]). lia.
  - intros j Hj. specialize (Hgo j Hj). rewrite Qle_bool_rung in Hgo.
    by apply Z.leb_le.
  - intros Hlt. cbn in Hlt. rewrite Qle_bool_rung in Hstop.
    apply Z.leb_gt, Hstop. cbn. lia.
  - by rewrite toFixed1_rung.
Qed.


(** ** The auto-labeler *)




(** C6 (as stated) fails: with the same node and the same probe, the
    label follows what blkid prints and the purpose what ls prints. *)
Lemma labeler_depends_on_commands :
  autoregister.generateSmartLabel (system_with "KINGSTON" "") usb_stick_unmounted no_info
  ≠ autoregister.generateSmartLabel (system_with "PHOTOS" "") usb_stick_unmounted no_info ∧
  autoregister.detectPurpose (system_with "" "Documents") usb_stick no_info
  ≠ autoregister.detectPurpose (system_with "" "lost+found") usb_stick no_info.
Proof. split; vm_compute; discriminate. Qed.

(** C6 (amended). Given the node, the probe and the output of the one
    command each function runs - blkid on the node's device for
    generateSmartLabel, ls on its mount path for detectPurpose - the
    result is determined; generateSmartLabel runs no command for a
    filesystem other than vfat and ntfs, and detectPurpose none for a node
    that is not mounted. *)
Theorem labeler_determined_by_inputs_and_commands
    sys sys' (drive : detect.drive) (info : autoregister.detailed_info) :
  (autoregister.blkid_label sys (detect.d_device drive)
   = autoregister.blkid_label sys' (detect.d_device drive) →
   autoregister.generateSmartLabel sys drive info
   = autoregister.generateSmartLabel sys' drive info) ∧
  (autoregister.ls_head sys (detect.d_mountpoint drive)
   = autoregister.ls_head sys' (detect.d_mountpoint drive) →
   autoregister.detectPurpose sys drive info
   = autoregister.detectPurpose sys' drive info) ∧
  (detect.d_fstype drive ≠ "vfat" → detect.d_fstype drive ≠ "ntfs" →
   autoregister.generateSmartLabel sys drive info
   = autoregister.generateSmartLabel sys' drive info) ∧
  (autoregister.mounted drive = false →
   autoregister.detectPurpose sys drive info
   = autoregister.detectPurpose sys' drive info).
Proof.
  repeat apply conj.
  - intros H. unfold autoregister.generateSmartLabel, autoregister.label_volume.
    by rewrite H.
  - intros H. unfold autoregister.detectPurpose, autoregister.purpose_dirs.
    by rewrite H.
  - intros Hv Hn. unfold autoregister.generateSmartLabel, autoregister.label_volume.
    apply String.eqb_neq in Hv, Hn. by rewrite Hv, Hn.
  - intros Hm. unfold autoregister.detectPurpose, autoregister.purpose_dirs.
    by rewrite Hm.
Qed.

Lemma labeler_determined_by_inputs_and_commands_witness :
  autoregister.generateSmartLabel (system_with "KINGSTON" "a") usb_stick_unmounted no_info
  = autoregister.generateSmartLabel (system_with "KINGSTON" "b") usb_stick_unmounted no_info.
Proof.
  destruct (labeler_determined_by_inputs_and_commands
              (system_with "KINGSTON" "a") (system_with "KINGSTON" "b")
              usb_stick_unmounted no_info) as (Hlabel & _).
  apply Hlabel. reflexivity.
Defined.

(** ** Placeholder uuids *)

Lemma uuid_of_autoRegisterDrive sys (drive : detect.drive) :
  uuid_of (autoregister.autoRegisterDrive sys drive)
  = Some (JStr (detect.d_uuid drive)).
Proof. unfold uuid_of, autoregister.autoRegisterDrive. apply lookup_insert_eq. Qed.

(** C7 (as stated) fails: a scan with a partition that has no filesystem
    uuid, followed by "Auto-register all drives" and its confirmation,
    leaves a record keyed by the placeholder in the store. *)
Lemma placeholder_uuid_is_persisted :
  Some (JStr "NO-UUID-sdb2") ∈
  uuid_of <$> stored (world_of
    (diskmgt.addDrive frozen_clock quiet_system example_scan
       (diskmgt.AutoAll true) fresh)).
Proof. vm_compute. right. left. Qed.

(** C7 (amended). A scanned device without a filesystem uuid gets the
    key "NO-UUID-" followed by its name, and auto-registration does not
    set such keys apart: it returns one record for every detected
    partition whose key is not yet registered, under the key of the scan,
    in scan order. *)
Theorem placeholder_assigned_and_registered sys
    (device : detect.blockdev) (detected : list detect.drive)
    (known : list record) :
  (detect.bd_uuid device = None ∨ detect.bd_uuid device = Some "" →
   detect.d_uuid (detect.entry device) = "NO-UUID-" +:+ detect.bd_name device) ∧
  uuid_of <$> autoregister.autoRegisterAll sys detected known
  = (λ d, Some (JStr (detect.d_uuid d))) <$>
      filter (λ d, Some (JStr (detect.d_uuid d)) ∉ uuid_of <$> known)
        (filter (λ d, detect.d_type d = "part") detected).
Proof.
  split.
  - destruct device as [name size type mp fs model uuid children]. cbn.
    by intros [-> | ->].
  - unfold autoregister.autoRegisterAll. rewrite <- list_fmap_compose.
    erewrite (list_fmap_ext (uuid_of ∘ autoregister.autoRegisterDrive sys));
      [|intros i d _; apply uuid_of_autoRegisterDrive].
    f_equal. apply list_filter_iff. intros d.
    by rewrite elem_of_list_to_set.
Qed.

Lemma placeholder_assigned_and_registered_witness :
  detect.d_uuid (detect.entry sdb2) = "NO-UUID-sdb2".
Proof.
  destruct (placeholder_assigned_and_registered quiet_system sdb2 [] [])
    as (Hkey & _).
  apply Hkey. left. reflexivity.
Defined.

(** ** Reconciliation *)




Lemma same_uuid_same_index (ds : list record) i j r r' :
  NoDup (uuid_of <$> ds) → ds !! i = Some r → ds !! j = Some r' →
  uuid_of r = uuid_of r' → i = j.
Proof.
  intros Hnd Hi Hj Heq.
  apply (NoDup_lookup _ i j (uuid_of r) Hnd); rewrite list_lookup_fmap.
  - by rewrite Hi.
  - by rewrite Hj, Heq.
Qed.









(** The stores the tool builds satisfy the assumptions made above: from
    an empty store, any sequence of calls leaves distinct uuids and time
    stamps read from the clock. *)
Lemma perform_keeps_stamped clock o w w' :
  readable w → stamped_by clock w →
  perform clock o w = Return tt w' → stamped_by clock w'.
Proof.
  intros Hr Hst. destruct o as [|driveData|uuid|uuid]; cbn.
  - rewrite initStorage_run. intros [= <-]. intros r. rewrite stored_initialized.
    destruct w as [d f t]. apply Hst.
  - unfold mbind, M_bind. rewrite addDrive_run by done.
    destruct (existsb _ _); intros [= <-]; intros r.
    + rewrite stored_initialized. destruct w as [d f t]. apply Hst.
    + rewrite stored_written, written_ticks. intros [Hin|Hin]%elem_of_app.
      * destruct (Hst r Hin) as (k & Hk & Hls). exists k. split; [lia | done].
      * apply list_elem_of_singleton in Hin. subst r. exists (ticks w).
        split; [lia | apply stamp_last_seen].
  - rewrite updateLastSeen_run by done.
    destruct (list_find _ _) as [[i drive]|]; intros [= <-]; intros r.
    + rewrite stored_written, written_ticks.
      intros (j & Hj)%list_elem_of_lookup_1.
      apply list_lookup_insert_Some in Hj as [(_ & <- & _) | (_ & Hj)].
      * exists (ticks w). split; [lia | apply lookup_insert_eq].
      * destruct (Hst r) as (k & Hk & Hls); [by eapply list_elem_of_lookup_2|].
        exists k. split; [lia | done].
    + rewrite stored_initialized. destruct w as [d f t]. apply Hst.
  - rewrite removeDrive_run by done. intros [= <-]. intros r.
    rewrite stored_written, written_ticks.
    intros [_ Hin]%list_elem_of_filter. apply (Hst r Hin).
Qed.

Lemma run_from_empty_store clock (ops : list op) (w w' : world) :
  empty_store w → run clock ops w = Return tt w' →
  distinct_uuids w' ∧ stamped_by clock w'.
Proof.
  intros [Hr He].
  assert (Hd : distinct_uuids w) by (split; [done | rewrite He; constructor]).
  assert (Hs : stamped_by clock w).
  { intros r. rewrite He. by intros ?%not_elem_of_nil. }
  clear He Hr. revert w Hd Hs. induction ops as [|o ops IH]; intros w Hd Hs.
  - by intros [= <-].
  - destruct (perform_keeps_distinct clock o w Hd) as (w1 & Ho & Hd1).
    unfold run. cbn. unfold mbind, M_bind. rewrite Ho.
    apply IH; [done|]. eapply perform_keeps_stamped; [apply Hd | done | done].
Qed.

(** * Further properties of the store *)

Lemma find_filter_other u u' (ds : list record) :
  u' ≠ u →
  find (λ d, strict_eq (uuid_of d) u') (filter (λ d, uuid_of d ≠ u) ds)
  = find (λ d, strict_eq (uuid_of d) u') ds.
Proof.
  intros Hne. induction ds as [|d ds IH]; [done|].
  rewrite filter_cons. destruct (decide (uuid_of d ≠ u)) as [Hd|Hd]; cbn.
  - by rewrite IH.
  - apply dec_stable in Hd. rewrite IH.
    destruct (strict_eq (uuid_of d) u') eqn:E; [|done].
    apply strict_eq_true in E. congruence.
Qed.

Lemma uuids_filter_absent u (ds : list record) :
  u ∉ uuid_of <$> filter (λ d, uuid_of d ≠ u) ds.
Proof.
  intros (d & -> & Hin)%list_elem_of_fmap.
  apply list_elem_of_filter in Hin as [Hne _]. by apply Hne.
Qed.

Lemma filter_absent_id u (ds : list record) :
  u ∉ uuid_of <$> ds → filter (λ d, uuid_of d ≠ u) ds = ds.
Proof.
  induction ds as [|d ds IH]; [done|]. rewrite fmap_cons, not_elem_of_cons.
  intros [Hne Hnin]. rewrite filter_cons_True by done. by rewrite IH.
Qed.



(** X2. initStorage is idempotent: it creates the directory and an empty
    collection when they are missing, keeps an existing file whatever it
    holds, and a second call changes nothing. *)
Theorem initStorage_idempotent (w : world) :
  ∃ w', storage.initStorage w = Return tt w' ∧
        storage.initStorage w' = Return tt w' ∧
        config_dir w' = true ∧
        (∀ text, drives_file w = Some text → drives_file w' = Some text) ∧
        (drives_file w = None → drives_file w' = Some (Document [])).
Proof.
  exists (initialized w). rewrite !initStorage_run, initialized_idem.
  repeat apply conj; try done.
  - intros text Hf. cbn. by rewrite Hf.
  - intros Hf. cbn. by rewrite Hf.
Qed.

(** X3. On a store that can be read, removeDrive keeps exactly the
    records with another uuid, in their order: afterwards the uuid is not
    found, every other uuid is found as before, a second removal changes
    nothing, and removing a uuid that is not registered leaves the
    collection as it was. *)
Theorem removeDrive_removes_only_that_uuid (uuid : option jsval) (w : world) :
  readable w →
  ∃ w', storage.removeDrive uuid w = Return tt w' ∧
        storage.getAllDrives w' = Return (Records (stored w')) w' ∧
        stored w' `sublist_of` stored w ∧
        (∀ d, d ∈ stored w' ↔ d ∈ stored w ∧ uuid_of d ≠ uuid) ∧
        storage.getDriveByUUID uuid w' = Return None w' ∧
        (∀ other, other ≠ uuid →
           storage.getDriveByUUID other w'
           = Return (find (λ d, strict_eq (uuid_of d) other) (stored w)) w') ∧
        storage.removeDrive uuid w' = Return tt w' ∧
        (uuid ∉ uuid_of <$> stored w → stored w' = stored w).
Proof.
  intros Hr. eexists. split; [by apply removeDrive_run|].
  set (w' := written _ 0 w).
  assert (Hs : stored w' = filter (λ d, uuid_of d ≠ uuid) (stored w)) by done.
  assert (Hi : initialized w' = w') by done.
  assert (Hr' : readable w') by exact I.
  split; [by rewrite getAllDrives_run, Hi|].
  split; [rewrite Hs; apply sublist_filter|].
  split; [intros d; rewrite Hs, list_elem_of_filter; tauto|].
  split.
  { rewrite getDriveByUUID_run, Hi, Hs by done. f_equal.
    apply find_none_uuid, uuids_filter_absent. }
  split.
  { intros other Hne. rewrite getDriveByUUID_run, Hi, Hs by done. f_equal.
    by apply find_filter_other. }
  split.
  { rewrite removeDrive_run by apply readable_written. rewrite Hs.
    rewrite filter_absent_id by apply uuids_filter_absent. done. }
  intros Hnin. rewrite Hs. by apply filter_absent_id.
Qed.

Lemma removeDrive_removes_only_that_uuid_witness :
  let r : record := <["uuid" := JStr "abc-123"]> (<["label" := JStr "Test"]> ∅) in
  let w := written [stamp (frozen_clock 0) r] 1 fresh in
  readable w ∧
  ∃ w', storage.removeDrive (Some (JStr "abc-123")) w = Return tt w' ∧
        storage.getDriveByUUID (Some (JStr "abc-123")) w' = Return None w'.
Proof.
  intros r w. assert (Hr : readable w) by done. split; [exact Hr|].
  destruct (removeDrive_removes_only_that_uuid (Some (JStr "abc-123")) w Hr)
    as (w' & Hrun & _ & _ & _ & Hget & _).
  exists w'. split; [exact Hrun | exact Hget].
Defined.

Lemma find_first {A} (p : A → bool) (l : list A) i x :
  l !! i = Some x → p x = true →
  (∀ j y, l !! j = Some y → (j < i)%nat → p y = false) →
  find p l = Some x.
Proof.
  revert i. induction l as [|a l IH]; intros i Hi Hp Hbefore; [done|].
  destruct i as [|i]; cbn in *.
  - injection Hi as ->. by rewrite Hp.
  - rewrite (Hbefore 0%nat a eq_refl) by lia.
    apply (IH i); [done | done |].
    intros j y Hj Hlt. apply (Hbefore (S j) y Hj). lia.
Qed.

Lemma list_find_first_uuid (ds : list record) uuid i r :
  ds !! i = Some r → uuid_of r = uuid →
  (∀ j r', ds !! j = Some r' → (j < i)%nat → uuid_of r' ≠ uuid) →
  list_find (λ d, uuid_of d = uuid) ds = Some (i, r).
Proof. intros Hi Hu Hb. apply list_find_Some. eauto. Qed.

Lemma set_property_set field value (r : record) :
  field ≠ "__proto__" ∨ is_Some (r !! "__proto__") →
  set_property field value r = <[field := value]> r.
Proof.
  intros H. unfold set_property.
  destruct (String.eqb field "__proto__") eqn:E; [|done].
  apply String.eqb_eq in E. subst field.
  destruct H as [H | [x Hx]]; [done|]. cbn. by rewrite Hx.
Qed.

Lemma set_property_proto value (r : record) :
  r !! "__proto__" = None → set_property "__proto__" value r = r.
Proof. intros H. unfold set_property. cbn. by rewrite H. Qed.

Lemma set_property_other field value (r : record) other :
  other ≠ field → set_property field value r !! other = r !! other.
Proof.
  intros Hne. unfold set_property.
  destruct (_ && _); [done | by apply lookup_insert_ne].
Qed.

(** X4. On a store that can be read, updateDriveField answers false for a
    uuid that is not registered and leaves the collection alone.  For a
    registered uuid it answers true and assigns the field in the first
    record bearing it: the field then holds the value - except for the
    name "__proto__" on a record that has no such property of its own,
    where the assignment stores nothing and the record stays as it was.
    That record keeps its other fields, every other record is unchanged,
    no clock is read, and unless the field is the uuid itself the uuids
    stay as they were and the record is found under its uuid. *)
Theorem updateDriveField_sets_one_field
    (uuid : option jsval) (field : string) (value : jsval) (w : world) :
  readable w →
  (uuid ∉ uuid_of <$> stored w →
   ∃ w', storage.updateDriveField uuid field value w = Return false w' ∧
         stored w' = stored w) ∧
  (∀ i r, stored w !! i = Some r → uuid_of r = uuid →
     (∀ j r', stored w !! j = Some r' → (j < i)%nat → uuid_of r' ≠ uuid) →
     ∃ w' r1,
       storage.updateDriveField uuid field value w = Return true w' ∧
       stored w' !! i = Some r1 ∧
       (field ≠ "__proto__" ∨ is_Some (r !! "__proto__") →
        r1 !! field = Some value) ∧
       (field = "__proto__" → r !! "__proto__" = None →
        r1 = r ∧ stored w' = stored w) ∧
       (∀ other, other ≠ field → r1 !! other = r !! other) ∧
       (∀ j, j ≠ i → stored w' !! j = stored w !! j) ∧
       length (stored w') = length (stored w) ∧
       ticks w' = ticks w ∧
       (field ≠ "uuid" →
        uuid_of <$> stored w' = uuid_of <$> stored w ∧
        storage.getDriveByUUID uuid w' = Return (Some r1) w')).
Proof.
  intros Hr. split.
  - intros Hnin. exists (initialized w). rewrite updateDriveField_run by done.
    rewrite (proj2 (list_find_uuid_None _ _) Hnin).
    split; [done | apply stored_initialized].
  - intros i r Hi Hu Hfirst. rewrite updateDriveField_run by done.
    rewrite (list_find_first_uuid _ _ i r Hi Hu Hfirst).
    eexists _, (set_property field value r). split; [reflexivity|].
    rewrite stored_written.
    assert (Hlt : (i < length (stored w))%nat) by by eapply lookup_lt_Some.
    split; [by apply list_lookup_insert_eq|].
    split; [intros Hset; rewrite set_property_set by done; apply lookup_insert_eq|].
    split.
    { intros -> Hnone. rewrite set_property_proto by done.
      split; [done | by apply list_insert_id]. }
    split; [intros other Hne; by apply set_property_other|].
    split; [intros j Hne; by apply list_lookup_insert_ne|].
    split; [apply length_insert|]. split; [done|].
    intros Hf.
    assert (Hsame : uuid_of (set_property field value r) = uuid_of r).
    { unfold uuid_of. by apply set_property_other. }
    split.
    + rewrite list_fmap_insert. apply list_insert_id.
      by rewrite list_lookup_fmap, Hi, Hsame.
    + rewrite getDriveByUUID_run by solve_readable. cbn -[find]. f_equal.
      apply (find_first _ _ i).
      * by apply list_lookup_insert_eq.
      * apply strict_eq_true. congruence.
      * intros j y Hj Hjlt.
        rewrite list_lookup_insert_ne in Hj by lia.
        specialize (Hfirst j y Hj Hjlt).
        destruct (strict_eq (uuid_of y) uuid) eqn:E; [|done].
        by apply strict_eq_true in E.
Qed.

Lemma updateDriveField_sets_one_field_witness :
  let r : record := <["uuid" := JStr "abc-123"]> (<["label" := JStr "Test"]> ∅) in
  let w := written [r] 1 fresh in
  readable w ∧
  (∃ w', storage.updateDriveField (Some (JStr "zzz")) "label" (JStr "New") w
         = Return false w' ∧ stored w' = stored w) ∧
  (∃ w' r1, storage.updateDriveField (Some (JStr "abc-123")) "label" (JStr "New") w
            = Return true w' ∧
            stored w' !! 0%nat = Some r1 ∧ r1 !! "label" = Some (JStr "New")) ∧
  (∃ w', storage.updateDriveField (Some (JStr "abc-123")) "__proto__" (JStr "New") w
         = Return true w' ∧ stored w' = stored w).
Proof.
  intros r w. assert (Hr : readable w) by exact I. split; [exact Hr|].
  split; [|split].
  - destruct (updateDriveField_sets_one_field (Some (JStr "zzz")) "label"
                (JStr "New") w Hr) as (Hunknown & _).
    apply Hunknown. vm_compute. intros Hin.
    apply list_elem_of_singleton in Hin. discriminate.
  - destruct (updateDriveField_sets_one_field (Some (JStr "abc-123")) "label"
                (JStr "New") w Hr) as (_ & Hknown).
    destruct (Hknown 0%nat r eq_refl eq_refl) as (w' & r1 & Hrun & Hi & Hset & _).
    { intros j r' _ Hlt. lia. }
    exists w', r1. split; [exact Hrun|]. split; [exact Hi|].
    apply Hset. left. discriminate.
  - destruct (updateDriveField_sets_one_field (Some (JStr "abc-123")) "__proto__"
                (JStr "New") w Hr) as (_ & Hknown).
    destruct (Hknown 0%nat r eq_refl eq_refl) as (w' & r1 & Hrun & _ & _ & Hproto & _).
    { intros j r' _ Hlt. lia. }
    exists w'. split; [exact Hrun|]. apply Hproto; reflexivity.
Defined.

(** X5. On a store that can be read, updateLastSeen of a uuid that is not
    registered changes nothing and reads no clock.  For a registered uuid
    it reads the clock once and sets last_seen of the first record bearing
    it; first_seen and every other field of that record, and every other
    record, are unchanged. *)
Theorem updateLastSeen_touches_one_record
    clock (uuid : option jsval) (w : world) :
  readable w →
  (uuid ∉ uuid_of <$> stored w →
   ∃ w', storage.updateLastSeen clock uuid w = Return tt w' ∧
         stored w' = stored w ∧ ticks w' = ticks w) ∧
  (∀ i r, stored w !! i = Some r → uuid_of r = uuid →
     (∀ j r', stored w !! j = Some r' → (j < i)%nat → uuid_of r' ≠ uuid) →
     ∃ w' r1,
       storage.updateLastSeen clock uuid w = Return tt w' ∧
       stored w' !! i = Some r1 ∧
       r1 !! "last_seen" = Some (JStr (clock (ticks w))) ∧
       (∀ other, other ≠ "last_seen" → r1 !! other = r !! other) ∧
       (∀ j, j ≠ i → stored w' !! j = stored w !! j) ∧
       length (stored w') = length (stored w) ∧
       ticks w' = S (ticks w)).
Proof.
  intros Hr. split.
  - intros Hnin. exists (initialized w). rewrite updateLastSeen_run by done.
    rewrite (proj2 (list_find_uuid_None _ _) Hnin).
    split; [done|]. split; [apply stored_initialized | done].
  - intros i r Hi Hu Hfirst. rewrite updateLastSeen_run by done.
    rewrite (list_find_first_uuid _ _ i r Hi Hu Hfirst).
    eexists _, (<["last_seen" := JStr (clock (ticks w))]> r).
    split; [reflexivity|]. rewrite stored_written.
    assert (Hlt : (i < length (stored w))%nat) by by eapply lookup_lt_Some.
    split; [by apply list_lookup_insert_eq|].
    split; [apply lookup_insert_eq|].
    split; [intros other Hne; by apply lookup_insert_ne|].
    split; [intros j Hne; by apply list_lookup_insert_ne|].
    split; [apply length_insert | done].
Qed.

Lemma updateLastSeen_touches_one_record_witness :
  let r : record := <["uuid" := JStr "abc-123"]> (<["label" := JStr "Test"]> ∅) in
  let w := written [stamp (two_day_clock 0) r] 1 fresh in
  readable w ∧
  (∃ w', storage.updateLastSeen two_day_clock (Some (JStr "zzz")) w = Return tt w' ∧
         stored w' = stored w ∧ ticks w' = ticks w) ∧
  (∃ w' r1,
     storage.updateLastSeen two_day_clock (Some (JStr "abc-123")) w = Return tt w' ∧
     stored w' !! 0%nat = Some r1 ∧
     r1 !! "last_seen" = Some (JStr (two_day_clock 1)) ∧
     r1 !! "first_seen" = Some (JStr (two_day_clock 0)) ∧
     ticks w' = 2).
Proof.
  intros r w. assert (Hr : readable w) by exact I. split; [exact Hr|]. split.
  - destruct (updateLastSeen_touches_one_record two_day_clock (Some (JStr "zzz")) w Hr)
      as (Hunknown & _).
    apply Hunknown. vm_compute. intros Hin.
    apply list_elem_of_singleton in Hin. discriminate.
  - destruct (updateLastSeen_touches_one_record two_day_clock
                (Some (JStr "abc-123")) w Hr) as (_ & Hknown).
    destruct (Hknown 0%nat (stamp (two_day_clock 0) r) eq_refl eq_refl)
      as (w' & r1 & Hrun & Hi & Hlast & Hother & _ & _ & Hticks).
    { intros j r' _ Hlt. lia. }
    exists w', r1. split; [exact Hrun|]. split; [exact Hi|].
    split; [exact Hlast|]. split; [|exact Hticks].
    rewrite (Hother "first_seen") by discriminate. reflexivity.
Defined.

Lemma find_app_last u (ds : list record) (r : record) :
  u ∉ uuid_of <$> ds → uuid_of r = u →
  find (λ d, strict_eq (uuid_of d) u) (ds ++ [r]) = Some r.
Proof.
  intros Hnin Hu. apply (find_first _ _ (length ds)).
  - by rewrite lookup_app_r, Nat.sub_diag.
  - by apply strict_eq_true.
  - intros j y Hj Hlt. rewrite lookup_app_l in Hj by done.
    destruct (strict_eq (uuid_of y) u) eqn:E; [|done].
    apply strict_eq_true in E. destruct Hnin. rewrite <- E.
    apply list_elem_of_fmap. exists y. split; [done|].
    by eapply list_elem_of_lookup_2.
Qed.

(** X6. The round trip of the test suite ("Can add and remove test
    drive") holds for every record and every readable store that does not
    hold its uuid yet: addDrive answers true, the record is then found
    under its uuid with the label it was given, and after removeDrive it
    is not found any more and the collection is what it was before. *)
Theorem add_then_remove_restores clock (driveData : record) (w : world) :
  readable w → uuid_of driveData ∉ uuid_of <$> stored w →
  ∃ w1 w2 found,
    storage.addDrive clock driveData w = Return true w1 ∧
    storage.getDriveByUUID (uuid_of driveData) w1 = Return (Some found) w1 ∧
    found !! "label" = driveData !! "label" ∧
    storage.removeDrive (uuid_of driveData) w1 = Return tt w2 ∧
    storage.getDriveByUUID (uuid_of driveData) w2 = Return None w2 ∧
    stored w2 = stored w.
Proof.
  intros Hr Hnin.
  set (r' := stamp (clock (ticks w)) driveData).
  exists (written (stored w ++ [r']) 1 w),
         (written (stored w) 0 (written (stored w ++ [r']) 1 w)), r'.
  assert (Hfilter : filter (λ d, uuid_of d ≠ uuid_of driveData) (stored w ++ [r'])
                    = stored w).
  { rewrite filter_app, filter_absent_id by done.
    rewrite filter_cons_False, filter_nil, app_nil_r; [done|].
    intros Hne. apply Hne. apply uuid_of_stamp. }
  split.
  { rewrite addDrive_run by done.
    by rewrite (proj2 (existsb_uuid_false _ _) Hnin). }
  split.
  { rewrite getDriveByUUID_run by solve_readable. cbn -[find]. f_equal.
    apply find_app_last; [done | apply uuid_of_stamp]. }
  split; [by apply stamp_other|]. split.
  { rewrite removeDrive_run by apply readable_written.
    rewrite stored_written. by rewrite Hfilter. }
  split; [|done].
  rewrite getDriveByUUID_run by solve_readable. cbn -[find]. f_equal.
  by apply find_none_uuid.
Qed.

Lemma add_then_remove_restores_witness :
  let testDrive : record :=
    <["uuid" := JStr "test-uuid-12345"]> (<["label" := JStr "Test Drive"]>
    (<["size" := JStr "1GB"]> (<["type" := JStr "Test Type"]>
    (<["purpose" := JStr "Testing"]> (<["device" := JStr "/dev/test"]> ∅))))) in
  readable fresh ∧ (uuid_of testDrive ∉ uuid_of <$> stored fresh) ∧
  ∃ w1 w2 found,
    storage.addDrive frozen_clock testDrive fresh = Return true w1 ∧
    storage.getDriveByUUID (uuid_of testDrive) w1 = Return (Some found) w1 ∧
    found !! "label" = testDrive !! "label" ∧
    storage.removeDrive (uuid_of testDrive) w1 = Return tt w2 ∧
    storage.getDriveByUUID (uuid_of testDrive) w2 = Return None w2 ∧
    stored w2 = stored fresh.
Proof.
  intros testDrive.
  assert (Hr : readable fresh) by done.
  assert (Hn : uuid_of testDrive ∉ uuid_of <$> stored fresh).
  { cbn. apply not_elem_of_nil. }
  split; [exact Hr|]. split; [exact Hn|].
  exact (add_then_remove_restores frozen_clock testDrive fresh Hr Hn).
Defined.

Lemma length_filter_distinct uuid (ds : list record) :
  NoDup (uuid_of <$> ds) → uuid ∈ uuid_of <$> ds →
  S (length (filter (λ d, uuid_of d ≠ uuid) ds)) = length ds.
Proof.
  induction ds as [|d ds IH]; intros Hnd Hin; [by apply elem_of_nil in Hin|].
  rewrite fmap_cons in Hnd, Hin. apply NoDup_cons in Hnd as [Hd Hnd].
  destruct (decide (uuid_of d = uuid)) as [Heq|Hne].
  - rewrite filter_cons_False by (intros H; by apply H).
    rewrite filter_absent_id; [done|]. by rewrite <- Heq.
  - rewrite filter_cons_True by done. cbn. f_equal. apply IH; [done|].
    apply elem_of_cons in Hin as [Hin|Hin]; [congruence | done].
Qed.

(** X7. countDrives follows the collection: on a store that can be read a
    successful addDrive raises it by one and a rejected one leaves it;
    removeDrive never raises it, leaves it for a uuid that is not
    registered, and lowers it by exactly one when the uuids of the store
    are distinct and the uuid is registered. *)
Theorem countDrives_follows_changes
    clock (driveData : record) (uuid : option jsval) (w : world) :
  readable w →
  ∃ n wa wr (added : bool) m,
    storage.countDrives w = Return (Some n) (initialized w) ∧
    storage.addDrive clock driveData w = Return added wa ∧
    storage.countDrives wa = Return (Some (if added then S n else n)) wa ∧
    storage.removeDrive uuid w = Return tt wr ∧
    storage.countDrives wr = Return (Some m) wr ∧
    (m ≤ n)%nat ∧
    (uuid ∉ uuid_of <$> stored w → m = n) ∧
    (NoDup (uuid_of <$> stored w) → uuid ∈ uuid_of <$> stored w → S m = n).
Proof.
  intros Hr. exists (length (stored w)).
  assert (Hcount : ∀ w0, readable w0 → storage.countDrives w0
                         = Return (Some (length (stored w0))) (initialized w0)).
  { intros w0 Hr0. by apply countDrives_shaped, readable_not_misshapen. }
  rewrite addDrive_run, removeDrive_run by done.
  assert (Hrem : ∀ wr, wr = written (filter (λ d, uuid_of d ≠ uuid) (stored w)) 0 w →
    storage.countDrives wr
      = Return (Some (length (filter (λ d, uuid_of d ≠ uuid) (stored w)))) wr ∧
    (length (filter (λ d, uuid_of d ≠ uuid) (stored w)) ≤ length (stored w))%nat ∧
    (uuid ∉ uuid_of <$> stored w →
     length (filter (λ d, uuid_of d ≠ uuid) (stored w)) = length (stored w)) ∧
    (NoDup (uuid_of <$> stored w) → uuid ∈ uuid_of <$> stored w →
     S (length (filter (λ d, uuid_of d ≠ uuid) (stored w))) = length (stored w))).
  { intros wr ->. split; [by rewrite Hcount by solve_readable|]. split; [apply length_filter|].
    split; [intros Hnin; by rewrite filter_absent_id|].
    apply length_filter_distinct. }
  destruct (existsb _ (stored w)) eqn:E.
  - exists (initialized w), (written (filter (λ d, uuid_of d ≠ uuid) (stored w)) 0 w),
      false, (length (filter (λ d, uuid_of d ≠ uuid) (stored w))).
    split; [by apply Hcount|]. split; [done|].
    split; [by rewrite Hcount, stored_initialized, initialized_idem by solve_readable|].
    split; [done|]. by apply Hrem.
  - exists (written (stored w ++ [stamp (clock (ticks w)) driveData]) 1 w),
      (written (filter (λ d, uuid_of d ≠ uuid) (stored w)) 0 w),
      true, (length (filter (λ d, uuid_of d ≠ uuid) (stored w))).
    split; [by apply Hcount|]. split; [done|]. split.
    { rewrite Hcount, stored_written, length_app by solve_readable. cbn.
      by rewrite Nat.add_1_r. }
    split; [done|]. by apply Hrem.
Qed.

Lemma countDrives_follows_changes_witness :
  let r : record := <["uuid" := JStr "abc-123"]> (<["label" := JStr "Test"]> ∅) in
  readable fresh ∧
  ∃ n wa wr (added : bool) m,
    storage.countDrives fresh = Return (Some n) (initialized fresh) ∧
    storage.addDrive frozen_clock r fresh = Return added wa ∧
    storage.countDrives wa = Return (Some (if added then S n else n)) wa ∧
    storage.removeDrive (Some (JStr "abc-123")) fresh = Return tt wr ∧
    storage.countDrives wr = Return (Some m) wr ∧
    (m ≤ n)%nat.
Proof.
  intros r. assert (Hr : readable fresh) by done. split; [exact Hr|].
  destruct (countDrives_follows_changes frozen_clock r (Some (JStr "abc-123"))
              fresh Hr) as (n & wa & wr & added & m & H1 & H2 & H3 & H4 & H5 & H6 & _).
  exists n, wa, wr, added, m. repeat apply conj; assumption.
Defined.



(** * Further properties of the scanner *)

Lemma visited_within (blockdevices : list detect.blockdev)
    (device inner : detect.blockdev) :
  visited [device] inner → visited blockdevices device → visited blockdevices inner.
Proof.
  induction 1 as [d Hin | parent child Hv IH Ht Hc]; intros Hdev.
  - apply list_elem_of_singleton in Hin. by subst d.
  - eapply visited_child; [by apply IH | done | done].
Qed.

Lemma emitted_from_tracked (device : detect.blockdev) :
  ∀ e, e ∈ emitted device →
       ∃ inner, visited [device] inner ∧
                detect.tracked (detect.bd_type inner) = true ∧
                e = detect.entry inner.
Proof.
  induction device as [name size type mp fs model uuid children IH]
    using blockdev_tree_ind.
  intros e He.
  set (device := detect.BlockDev name size type mp fs model uuid children) in *.
  destruct (detect.tracked type) eqn:Ht.
  - rewrite (emitted_tracked device Ht) in He.
    apply elem_of_cons in He as [-> | He].
    + exists device. split; [apply visited_top; left | done].
    + apply list_elem_of_join in He as (l & He & Hl).
      apply list_elem_of_fmap in Hl as (child & -> & Hchild).
      rewrite Forall_forall in IH.
      destruct (IH child Hchild e He) as (inner & Hv & Hti & ->).
      exists inner. split; [|done].
      apply (visited_within _ child); [done|].
      eapply visited_child; [apply visited_top; left | exact Ht | exact Hchild].
  - unfold emitted in He. cbn in He. rewrite Ht in He. by apply elem_of_nil in He.
Qed.

(** X9. The entries of a scan are exactly the entries of the tracked
    devices (type disk or part) that the traversal reaches: a device
    below a device of another type, such as a partition of a loop device,
    yields no entry, and neither does a failed scan. *)
Theorem scan_entries_are_tracked_reached_devices
    (blockdevices : list detect.blockdev) (e : detect.drive) :
  (e ∈ detect.detectDrives (Some blockdevices) ↔
   ∃ device, visited blockdevices device ∧
             detect.tracked (detect.bd_type device) = true ∧
             e = detect.entry device) ∧
  e ∉ detect.detectDrives None.
Proof.
  split; [split|apply not_elem_of_nil].
  - rewrite detectDrives_flat. intros (l & He & Hl)%list_elem_of_join.
    apply list_elem_of_fmap in Hl as (top & -> & Htop).
    destruct (emitted_from_tracked top e He) as (inner & Hv & Ht & ->).
    exists inner. split; [|done].
    apply (visited_within _ top); [done | by apply visited_top].
  - intros (device & Hv & Ht & ->).
    destruct (visited_contiguous _ _ Hv) as (before & after & ->).
    rewrite (emitted_tracked device Ht). set_solver.
Qed.

Lemma append_nonempty_r (a b : string) : b ≠ "" → a +:+ b ≠ "".
Proof. intros Hb. destruct a; [done|]. cbn. discriminate. Qed.

Lemma append_nonempty_l (a b : string) : a ≠ "" → a +:+ b ≠ "".
Proof. intros Ha. destruct a; [done|]. cbn. discriminate. Qed.

Lemma formatSize_nonempty (bytes : N) : detect.formatSize bytes ≠ "".
Proof.
  unfold detect.formatSize, detect.units.
  destruct (detect.ladder _ _ _) as [size unit].
  apply append_nonempty_l. unfold detect.toFixed1.
  apply append_nonempty_r. by apply append_nonempty_l.
Qed.

Lemma or_else_nonempty (x : option string) (dflt : string) :
  dflt ≠ "" → js.or_else x dflt ≠ "".
Proof. intros Hd. by destruct x as [[|c s]|]. Qed.

(** X10. Every entry of a scan is well formed, which is what the test
    "detected drives have required fields" asks of the first one: its
    type is disk or part, its device path is "/dev/" followed by its
    name, and its size, mount point, filesystem type, model and uuid are
    never empty (missing values are replaced by their defaults). *)
Theorem scan_entries_well_formed
    (lsblk : option (list detect.blockdev)) (e : detect.drive) :
  e ∈ detect.detectDrives lsblk →
  (detect.d_type e = "disk" ∨ detect.d_type e = "part") ∧
  detect.d_device e = "/dev/" +:+ detect.d_name e ∧
  detect.d_size e ≠ "" ∧ detect.d_mountpoint e ≠ "" ∧
  detect.d_fstype e ≠ "" ∧ detect.d_model e ≠ "" ∧ detect.d_uuid e ≠ "".
Proof.
  destruct lsblk as [blockdevices|]; [|by intros ?%not_elem_of_nil].
  rewrite detectDrives_flat. intros (l & He & Hl)%list_elem_of_join.
  apply list_elem_of_fmap in Hl as (top & -> & Htop).
  destruct (emitted_from_tracked top e He) as (device & _ & Ht & ->).
  destruct device as [name size type mp fs model uuid children]. cbn in *.
  split.
  { unfold detect.tracked in Ht. apply orb_true_iff in Ht as [Ht|Ht];
      apply String.eqb_eq in Ht; auto. }
  split; [done|]. split; [apply formatSize_nonempty|].
  repeat split; apply or_else_nonempty; done.
Qed.

Lemma scan_entries_well_formed_witness :
  detect.d_uuid (detect.entry sdb2) ≠ "" ∧
  detect.d_mountpoint (detect.entry sdb2) ≠ "".
Proof.
  assert (Hin : detect.entry sdb2 ∈ detect.detectDrives example_scan).
  { vm_compute. right. right. left. }
  destruct (scan_entries_well_formed example_scan (detect.entry sdb2) Hin)
    as (_ & _ & _ & Hm & _ & _ & Hu).
  split; [exact Hu | exact Hm].
Defined.

(** X11. A scan treats the top-level devices one by one and in order: the
    scan of two lists of devices put together is the scan of the first
    followed by the scan of the second, and a top-level device of a type
    other than disk and part adds nothing, whatever lies below it. *)
Theorem scan_is_compositional
    (devices1 devices2 : list detect.blockdev) (device : detect.blockdev) :
  detect.detectDrives (Some (devices1 ++ devices2))
  = detect.detectDrives (Some devices1) ++ detect.detectDrives (Some devices2) ∧
  (detect.tracked (detect.bd_type device) = false →
   detect.detectDrives (Some (devices1 ++ device :: devices2))
   = detect.detectDrives (Some (devices1 ++ devices2))).
Proof.
  split.
  - by rewrite !detectDrives_flat, fmap_app, join_app.
  - intros Ht. rewrite !detectDrives_flat, !fmap_app, !join_app. cbn.
    replace (emitted device) with (@nil detect.drive); [done|].
    unfold emitted. destruct device. cbn in *. by rewrite Ht.
Qed.

Lemma scan_is_compositional_witness :
  detect.detectDrives (Some ([] ++ loop0 :: [sdb]))
  = detect.detectDrives (Some ([] ++ [sdb])).
Proof.
  destruct (scan_is_compositional [] [sdb] loop0) as (_ & Hskip).
  apply Hskip. reflexivity.
Defined.

(** * Further properties of the auto-labeler *)

Lemma substring0_length n (s : string) : (String.length (js.substring0 n s) ≤ n)%nat.
Proof.
  unfold js.substring0. revert s. induction n as [|n IH]; intros [|c s]; cbn; try lia.
  specialize (IH s). lia.
Qed.

Lemma substring0_every p n (s : string) :
  every p s = true → every p (js.substring0 n s) = true.
Proof.
  unfold js.substring0. revert s. induction n as [|n IH]; intros [|c s]; cbn; try done.
  intros [Hc Hs]%andb_true_iff. rewrite Hc. by apply IH.
Qed.

Lemma substring0_nonempty n (s : string) : s ≠ "" → js.substring0 (S n) s ≠ "".
Proof. by destruct s. Qed.

Lemma dash_runs_no_space b (s : string) :
  every (λ c, negb (js.is_space c)) (js.dash_runs b s) = true.
Proof.
  revert b. induction s as [|c s IH]; intros b; [done|]. cbn.
  destruct (js.is_space c) eqn:E.
  - destruct b; [apply IH|]. cbn. by rewrite IH.
  - cbn. by rewrite E, IH.
Qed.

Lemma spaces_to_dash_nonempty (s : string) : s ≠ "" → js.spaces_to_dash s ≠ "".
Proof.
  destruct s as [|c s]; [done|]. intros _. unfold js.spaces_to_dash. cbn.
  by destruct (js.is_space c).
Qed.

Lemma sanitize_every (s : string) : every js.is_label_char (js.sanitize s) = true.
Proof.
  induction s as [|c s IH]; [done|]. cbn. rewrite IH.
  by destruct (js.is_label_char c) eqn:E; rewrite ?E.
Qed.

Lemma sanitize_length (s : string) :
  String.length (js.sanitize s) = String.length s.
Proof. induction s as [|c s IH]; [done|]. cbn. by rewrite IH. Qed.

Lemma eqb_false_nonempty (s : string) : negb (String.eqb s "") = true → s ≠ "".
Proof. intros H ->. done. Qed.

(** X12. The labels have the shape a table column and a file name can
    take.  A label taken from the name of an operating system, from a
    volume label or from a model has at most 20 characters and no white
    space; a label taken from a mount path is "Root-System" or the last
    segment of the path with the same length, and holds only letters,
    digits, "-" and "_". *)
Theorem label_shapes sys (drive : detect.drive)
    (info : autoregister.detailed_info) (l : string) :
  (autoregister.label_os info = Some l ∨
   autoregister.label_volume sys drive = Some l ∨
   autoregister.label_model drive = Some l →
   (String.length l ≤ 20)%nat ∧ every (λ c, negb (js.is_space c)) l = true) ∧
  (autoregister.label_mount drive = Some l →
   every js.is_label_char l = true ∧
   (l = "Root-System" ∨
    String.length l = String.length (js.basename (detect.d_mountpoint drive)))).
Proof.
  assert (Hshape : ∀ s, (String.length (js.substring0 20 (js.spaces_to_dash s)) ≤ 20)%nat ∧
            every (λ c, negb (js.is_space c))
                  (js.substring0 20 (js.spaces_to_dash s)) = true).
  { intros s. split; [apply substring0_length|].
    apply substring0_every, dash_runs_no_space. }
  split.
  - unfold autoregister.label_os, autoregister.label_volume, autoregister.label_model.
    intros [H | [H | H]].
    + destruct (autoregister.osInfo info) as [|os rest]; [done|].
      destruct (_ && _); [|done]. injection H as <-. apply Hshape.
    + destruct (_ || _); [|done].
      destruct (autoregister.blkid_label sys _) as [out|]; [|done].
      destruct (negb _); [|done]. injection H as <-. apply Hshape.
    + destruct (_ && _); [|done]. injection H as <-. apply Hshape.
  - unfold autoregister.label_mount. destruct (autoregister.mounted drive); [|done].
    destruct (_ && _).
    + intros [= <-]. split; [apply sanitize_every|]. right. apply sanitize_length.
    + destruct (String.eqb _ "/"); [|done]. intros [= <-]. split; [done | by left].
Qed.

Lemma label_shapes_witness :
  autoregister.label_mount usb_stick = Some "usb" ∧
  every js.is_label_char "usb" = true ∧
  ("usb" = "Root-System" ∨
   String.length "usb" = String.length (js.basename (detect.d_mountpoint usb_stick))).
Proof.
  assert (Hm : autoregister.label_mount usb_stick = Some "usb") by reflexivity.
  split; [exact Hm|].
  destruct (label_shapes quiet_system usb_stick no_info "usb") as (_ & Hmount).
  exact (Hmount Hm).
Defined.

(** X13. generateSmartLabel returns a label that is not empty, except
    when the operating-system rule is the first to apply and the name it
    cleans up consists of parenthesised text only, in which case that
    rule returns the empty string. *)
Theorem label_nonempty_unless_os_name_vanishes sys (drive : detect.drive)
    (info : autoregister.detailed_info) :
  autoregister.label_os info ≠ Some "" →
  autoregister.generateSmartLabel sys drive info ≠ "".
Proof.
  intros Hos. unfold autoregister.generateSmartLabel.
  assert (H1 : ∀ l, autoregister.label_lxd info = Some l → l ≠ "").
  { unfold autoregister.label_lxd. intros l.
    destruct (autoregister.lxdInfo info) as [lxd|]; [|done].
    destruct (autoregister.isLXD lxd); [|done].
    by destruct (autoregister.pools lxd); intros [= <-]. }
  assert (H3 : ∀ l, autoregister.label_boot info = Some l → l ≠ "").
  { unfold autoregister.label_boot. intros l. by destruct (_ && _); intros [= <-]. }
  assert (H4 : ∀ l, autoregister.label_mount drive = Some l → l ≠ "").
  { unfold autoregister.label_mount. intros l H.
    destruct (autoregister.mounted drive); [|done].
    destruct (negb (String.eqb (js.basename (detect.d_mountpoint drive)) "")) eqn:E1;
      destruct (negb (String.eqb (js.basename (detect.d_mountpoint drive)) "/"));
      cbn [andb] in H;
      try (destruct (String.eqb (detect.d_mountpoint drive) "/");
           [by injection H as <- | done]).
    injection H as <-. apply eqb_false_nonempty in E1.
    destruct (js.basename _); [done | discriminate]. }
  assert (H5 : ∀ l, autoregister.label_volume sys drive = Some l → l ≠ "").
  { unfold autoregister.label_volume. intros l. destruct (_ || _); [|done].
    destruct (autoregister.blkid_label sys _) as [out|]; [|done].
    destruct (negb _) eqn:E; [|done]. intros [= <-].
    by apply substring0_nonempty, spaces_to_dash_nonempty, eqb_false_nonempty. }
  assert (H6 : ∀ l, autoregister.label_model drive = Some l → l ≠ "").
  { unfold autoregister.label_model. intros l.
    destruct (negb (String.eqb _ "")) eqn:E; cbn; [|done].
    destruct (_ && _); [|done]. intros [= <-].
    by apply substring0_nonempty, spaces_to_dash_nonempty, eqb_false_nonempty. }
  destruct (autoregister.label_lxd info) as [l|]; cbn; [by apply H1|].
  destruct (autoregister.label_os info) as [l|]; cbn; [congruence|].
  destruct (autoregister.label_boot info) as [l|]; cbn; [by apply H3|].
  destruct (autoregister.label_mount drive) as [l|]; cbn; [by apply H4|].
  destruct (autoregister.label_volume sys drive) as [l|]; cbn; [by apply H5|].
  destruct (autoregister.label_model drive) as [l|]; cbn; [by apply H6|].
  unfold autoregister.label_fallback. by apply append_nonempty_r, append_nonempty_l.
Qed.

Lemma label_nonempty_unless_os_name_vanishes_witness :
  autoregister.generateSmartLabel quiet_system usb_stick no_info ≠ "".
Proof.
  apply (label_nonempty_unless_os_name_vanishes quiet_system usb_stick no_info).
  discriminate.
Defined.

Lemma purpose_mount_nonempty (drive : detect.drive) l :
  autoregister.purpose_mount drive = Some l → l ≠ "".
Proof.
  unfold autoregister.purpose_mount. destruct (autoregister.mounted drive); [|done].
  repeat (destruct (_ || _); [by intros [= <-]|]).
  by destruct (String.eqb _ "/"); intros [= <-].
Qed.

Lemma purpose_dirs_nonempty sys (drive : detect.drive) l :
  autoregister.purpose_dirs sys drive = Some l → l ≠ "".
Proof.
  unfold autoregister.purpose_dirs. destruct (autoregister.mounted drive); [|done].
  destruct (autoregister.ls_head sys _) as [out|]; [|done].
  repeat (destruct (_ || _); [by intros [= <-]|]). done.
Qed.

(** X14. detectPurpose never returns the empty string, and when the probe
    reports container storage, an operating system or a boot flag, the
    purpose is settled by the probe alone: it is the same for every node
    and whatever the commands print. *)
Theorem purpose_nonempty_and_probe_first sys (drive : detect.drive)
    (info : autoregister.detailed_info) :
  autoregister.detectPurpose sys drive info ≠ "" ∧
  (probe_decides info →
   ∀ sys' (node : detect.drive),
     autoregister.detectPurpose sys' node info
     = autoregister.detectPurpose sys drive info).
Proof.
  split.
  - unfold autoregister.detectPurpose.
    assert (Hrest :
      (if negb (Nat.eqb (length (autoregister.osInfo info)) 0)
       then "Operating System"
       else if autoregister.bootable info then "System Boot"
       else default "General Storage"
              (autoregister.or_next (autoregister.purpose_mount drive)
                 (autoregister.or_next
                    (if String.eqb (detect.d_fstype drive) "swap"
                     then Some "Swap Memory" else None)
                    (autoregister.purpose_dirs sys drive)))) ≠ "").
    { destruct (negb _); [done|]. destruct (autoregister.bootable info); [done|].
      destruct (autoregister.purpose_mount drive) as [l|] eqn:Em; cbn;
        [by eapply purpose_mount_nonempty|].
      destruct (String.eqb _ "swap"); cbn; [done|].
      destruct (autoregister.purpose_dirs sys drive) as [l|] eqn:Ed; cbn;
        [by eapply purpose_dirs_nonempty | done]. }
    destruct (autoregister.lxdInfo info) as [[[] ps cs]|]; try exact Hrest.
    clear Hrest. destruct (negb (Nat.eqb (length cs) 0));
      [by apply append_nonempty_l | done].
  - intros Hp sys' node. unfold autoregister.detectPurpose.
    destruct (autoregister.lxdInfo info) as [[[] ps cs]|] eqn:El; [done| | ];
      (destruct Hp as [(lxd & Hl & Hi) | [Hos | Hb]];
       [ rewrite El in Hl; try done; injection Hl as <-; done
       | destruct (autoregister.osInfo info); [done | done]
       | rewrite Hb; by destruct (negb _) ]).
Qed.

Lemma purpose_nonempty_and_probe_first_witness :
  autoregister.detectPurpose quiet_system usb_stick_unmounted lxd_probe
  = autoregister.detectPurpose quiet_system usb_stick lxd_probe.
Proof.
  destruct (purpose_nonempty_and_probe_first quiet_system usb_stick lxd_probe)
    as (_ & Hprobe).
  apply Hprobe. left. eexists. split; reflexivity.
Defined.

Lemma startsWith_append (p x : string) : js.startsWith p (p +:+ x) = true.
Proof.
  unfold js.startsWith. induction p as [|a p IH].
  - by destruct x.
  - change (String a p +:+ x) with (String a (p +:+ x)). cbn.
    by destruct (ascii_dec a a).
Qed.

(** X15. Label and purpose of an auto-registered drive agree on what was
    found: when the label comes from the container-storage rule the
    purpose begins with "LXD Storage", when it comes from the
    operating-system rule the purpose is "Operating System", and when it
    comes from the boot rule and no operating system is listed the
    purpose is "System Boot". *)
Theorem label_and_purpose_agree sys (drive : detect.drive)
    (info : autoregister.detailed_info) (l : string) :
  (autoregister.label_lxd info = Some l →
   js.startsWith "LXD-" (autoregister.generateSmartLabel sys drive info) = true ∧
   js.startsWith "LXD Storage" (autoregister.detectPurpose sys drive info) = true) ∧
  (autoregister.label_lxd info = None → autoregister.label_os info = Some l →
   autoregister.generateSmartLabel sys drive info = l ∧
   autoregister.detectPurpose sys drive info = "Operating System") ∧
  (autoregister.label_lxd info = None → autoregister.osInfo info = [] →
   autoregister.label_boot info = Some l →
   autoregister.generateSmartLabel sys drive info = "Boot-Drive" ∧
   autoregister.detectPurpose sys drive info = "System Boot").
Proof.
  unfold autoregister.generateSmartLabel, autoregister.detectPurpose,
    autoregister.label_lxd, autoregister.label_os, autoregister.label_boot.
  split; [|split].
  - destruct (autoregister.lxdInfo info) as [[[] ps cs]|]; try done.
    intros _. split.
    + destruct ps as [|p ps]; cbn; [reflexivity|].
      apply (startsWith_append "LXD-").
    + destruct (negb (Nat.eqb (length cs) 0)); [|reflexivity].
      apply (startsWith_append "LXD Storage" (" (" +:+ _)).
  - intros Hl Ho.
    assert (Hp : match autoregister.lxdInfo info with
                 | Some (autoregister.LxdInfo true _ _) => False
                 | _ => True
                 end).
    { destruct (autoregister.lxdInfo info) as [[[] ps cs]|]; try done.
      by destruct ps. }
    rewrite Hl. cbn.
    destruct (autoregister.osInfo info) as [|os rest]; [done|].
    rewrite Ho. cbn. split; [done|].
    by destruct (autoregister.lxdInfo info) as [[[] ps cs]|].
  - intros Hl Hos Hb.
    assert (Hp : match autoregister.lxdInfo info with
                 | Some (autoregister.LxdInfo true _ _) => False
                 | _ => True
                 end).
    { destruct (autoregister.lxdInfo info) as [[[] ps cs]|]; try done.
      by destruct ps. }
    rewrite Hl, Hos. cbn.
    destruct (autoregister.bootable info); [|done]. cbn in Hb |- *.
    destruct (negb (Nat.eqb (length (autoregister.bootPartitions info)) 0));
      [|done].
    cbn. split; [done|].
    by destruct (autoregister.lxdInfo info) as [[[] ps cs]|].
Qed.

Lemma label_and_purpose_agree_witness :
  js.startsWith "LXD-" (autoregister.generateSmartLabel quiet_system usb_stick lxd_probe)
  = true ∧
  js.startsWith "LXD Storage"
    (autoregister.detectPurpose quiet_system usb_stick lxd_probe) = true.
Proof.
  destruct (label_and_purpose_agree quiet_system usb_stick lxd_probe "LXD-default")
    as (Hlxd & _).
  apply Hlxd. reflexivity.
Defined.

(** * Further properties of the menus *)

Lemma dom_autoRegisterDrive sys (drive : detect.drive) :
  dom (autoregister.autoRegisterDrive sys drive)
  = ({[ "uuid"; "label"; "size"; "type"; "purpose"; "device" ]} : gset string).
Proof.
  unfold autoregister.autoRegisterDrive. rewrite !dom_insert_L, dom_empty_L.
  set_solver.
Qed.

(** X16. A record proposed by autoRegisterAll describes a detected
    partition that is not registered yet: it has the six fields uuid,
    label, size, type, purpose and device and no other (so no time stamp
    before addDrive sets them), its uuid, size and device are those of
    the node, and its uuid is not among the known ones.  Whole disks and
    registered partitions are never proposed. *)
Theorem autoRegisterAll_proposes_new_partitions sys
    (detected : list detect.drive) (known : list record) (r : record) :
  r ∈ autoregister.autoRegisterAll sys detected known →
  ∃ d, d ∈ detected ∧ detect.d_type d = "part" ∧
       r = autoregister.autoRegisterDrive sys d ∧
       dom r = ({[ "uuid"; "label"; "size"; "type"; "purpose"; "device" ]}
                : gset string) ∧
       r !! "uuid" = Some (JStr (detect.d_uuid d)) ∧
       r !! "size" = Some (JStr (detect.d_size d)) ∧
       r !! "device" = Some (JStr (detect.d_device d)) ∧
       r !! "type" = Some (JStr (detect.getDriveType (detect.d_name d))) ∧
       uuid_of r ∉ uuid_of <$> known.
Proof.
  unfold autoregister.autoRegisterAll.
  intros (d & -> & Hd)%list_elem_of_fmap.
  apply list_elem_of_filter in Hd as [Hnew Hd].
  apply list_elem_of_filter in Hd as [Hpart Hd].
  exists d. split; [done|]. split; [done|]. split; [done|].
  split; [apply dom_autoRegisterDrive|].
  split; [apply uuid_of_autoRegisterDrive|].
  do 3 (split; [unfold autoregister.autoRegisterDrive; by simplify_map_eq|]).
  rewrite uuid_of_autoRegisterDrive.
  intros Hin. apply Hnew. by apply elem_of_list_to_set.
Qed.

Lemma autoRegisterAll_proposes_new_partitions_witness :
  ∃ d, d ∈ detect.detectDrives example_scan ∧ detect.d_type d = "part" ∧
       autoregister.autoRegisterDrive quiet_system (detect.entry sdb2)
       = autoregister.autoRegisterDrive quiet_system d.
Proof.
  assert (Hin : autoregister.autoRegisterDrive quiet_system (detect.entry sdb2)
                ∈ autoregister.autoRegisterAll quiet_system
                    (detect.detectDrives example_scan) []).
  { unfold autoregister.autoRegisterAll. apply list_elem_of_fmap.
    exists (detect.entry sdb2). split; [reflexivity|].
    vm_compute. right. left. }
  destruct (autoRegisterAll_proposes_new_partitions quiet_system
              (detect.detectDrives example_scan) [] _ Hin)
    as (d & Hd & Hpart & Heq & _).
  exists d. split; [exact Hd|]. split; [exact Hpart | exact Heq].
Defined.

Lemma registerEach_run clock (rs : list record) :
  ∀ (n : nat) (w : world),
  readable w →
  ∃ k w',
    diskmgt.registerEach clock rs n w = Return (n + k) w' ∧
    readable w' ∧ (k ≤ length rs)%nat ∧
    (∃ extra, stored w' = stored w ++ extra ∧ length extra = k) ∧
    (∀ r, r ∈ rs → uuid_of r ∈ uuid_of <$> stored w') ∧
    (∀ u, u ∈ uuid_of <$> stored w' →
          u ∈ uuid_of <$> stored w ∨ u ∈ uuid_of <$> rs) ∧
    (NoDup (uuid_of <$> (stored w ++ rs)) → k = length rs) ∧
    (initialized w = w → initialized w' = w').
Proof.
  induction rs as [|r rs IH]; intros n w Hr.
  - exists 0%nat, w. cbn. rewrite Nat.add_0_r. split; [done|]. split; [done|].
    split; [done|]. split; [exists []; by rewrite app_nil_r|].
    split; [by intros r ?%not_elem_of_nil|]. split; [by left | done].
  - cbn [diskmgt.registerEach]. unfold mbind, M_bind.
    rewrite addDrive_run by done.
    destruct (existsb _ (stored w)) eqn:E.
    + destruct (IH n (initialized w) (readable_initialized _ Hr))
        as (k & w' & Hrun & Hr' & Hk & (extra & Hst & Hlen) & Hall & Honly & Hnd & Hi).
      rewrite stored_initialized in *.
      exists k, w'. split; [done|]. split; [done|]. split; [cbn; lia|].
      split; [by exists extra|].
      split; [|split; [|split; [|intros _; apply Hi, initialized_idem]]].
      * intros r' [-> | Hin]%elem_of_cons; [|by apply Hall].
        apply existsb_uuid in E. rewrite Hst, fmap_app. apply elem_of_app. by left.
      * intros u Hu. destruct (Honly u Hu); [by left | right].
        rewrite fmap_cons. by right.
      * intros Hdup. exfalso. apply existsb_uuid in E.
        rewrite fmap_app in Hdup. apply NoDup_app in Hdup as (_ & Hdisj & _).
        apply (Hdisj _ E). cbn. left.
    + set (r' := stamp (clock (ticks w)) r).
      assert (Hu' : uuid_of r' = uuid_of r) by apply uuid_of_stamp.
      destruct (IH (S n) (written (stored w ++ [r']) 1 w) (readable_written _ _ _))
        as (k & w' & Hrun & Hr' & Hk & (extra & Hst & Hlen) & Hall & Honly & Hnd & Hi).
      rewrite stored_written in *.
      assert (Huu : uuid_of <$> (stored w ++ [r']) = (uuid_of <$> stored w) ++ [uuid_of r]).
      { by rewrite fmap_app, fmap_cons, Hu'. }
      exists (S k), w'. split; [by rewrite Hrun, Nat.add_succ_comm|].
      split; [done|]. split; [cbn; lia|].
      split; [exists (r' :: extra); rewrite Hst, <- app_assoc; cbn; by rewrite Hlen|].
      split; [|split; [|split; [|intros _; by apply Hi]]].
      * intros x [-> | Hin]%elem_of_cons; [|by apply Hall].
        rewrite Hst, fmap_app, Huu. apply elem_of_app. left.
        apply elem_of_app. right. left.
      * intros u Hu. destruct (Honly u Hu) as [Hin|Hin].
        -- rewrite Huu in Hin. apply elem_of_app in Hin as [Hin|Hin]; [by left|].
           right. apply list_elem_of_singleton in Hin. subst u. rewrite fmap_cons. left.
        -- right. rewrite fmap_cons. by right.
      * intros Hdup. cbn [length]. f_equal. apply Hnd.
        rewrite fmap_app, Huu, <- app_assoc. cbn.
        by rewrite fmap_app, fmap_cons in Hdup.
Qed.

Lemma filter_all {A} (P : A → Prop) `{∀ x, Decision (P x)} (l : list A) :
  Forall P l → filter P l = l.
Proof.
  induction 1 as [|x l Hx _ IH]; [done|]. by rewrite filter_cons_True, IH.
Qed.

Lemma addDrive_menu_offers clock sys lsblk choice (w : world) :
  readable w →
  diskmgt.addDrive clock sys lsblk choice w =
  match unregistered_of lsblk (stored w) with
  | [] => Return 0%nat (initialized w)
  | d :: rest =>
      match choice with
      | diskmgt.Cancel => Return 0%nat (initialized w)
      | diskmgt.AutoAll confirmAll =>
          if confirmAll
          then diskmgt.registerEach clock
                 (autoregister.autoRegisterDrive sys <$> d :: rest) 0 (initialized w)
          else Return 0%nat (initialized w)
      | diskmgt.Pick selectedDrive label type purpose =>
          match storage.addDrive clock
                  (<["uuid" := JStr (detect.d_uuid selectedDrive)]>
                   (<["label" := JStr label]>
                   (<["size" := JStr (detect.d_size selectedDrive)]>
                   (<["type" := JStr type]>
                   (<["purpose" := JStr purpose]>
                   (<["device" := JStr (detect.d_device selectedDrive)]> ∅))))))
                  (initialized w) with
          | Return ok w' => Return (if ok then 1%nat else 0%nat) w'
          | Throw e w' => Throw e w'
          end
      end
  end.
Proof.
  intros Hr. unfold diskmgt.addDrive, mbind, M_bind.
  rewrite getAllDrives_run by done. cbn [array_method mret M_ret].
  assert (Hun : filter (λ d, Some (JStr (detect.d_uuid d))
                             ∉ (list_to_set (uuid_of <$> stored w) : gset _))
                  (filter (λ d, detect.d_type d = "part") (detect.detectDrives lsblk))
                = unregistered_of lsblk (stored w)).
  { apply list_filter_iff. intros d. by rewrite elem_of_list_to_set. }
  rewrite Hun.
  destruct (unregistered_of lsblk (stored w)) as [|d rest] eqn:Eu; [done|].
  assert (Hall : Forall (λ x, detect.d_type x = "part" ∧
                    Some (JStr (detect.d_uuid x)) ∉ uuid_of <$> stored w) (d :: rest)).
  { rewrite <- Eu. apply Forall_forall. intros x Hx. unfold unregistered_of in Hx.
    apply list_elem_of_filter in Hx as [Hnew Hx].
    by apply list_elem_of_filter in Hx as [Hpart _]. }
  assert (Hreg : autoregister.autoRegisterAll sys (d :: rest) (stored w)
                 = autoregister.autoRegisterDrive sys <$> d :: rest).
  { unfold autoregister.autoRegisterAll.
    rewrite (filter_all (λ x, detect.d_type x = "part"))
      by (eapply Forall_impl; [exact Hall | by intros x []]).
    rewrite filter_all; [done|].
    eapply Forall_impl; [exact Hall|]. intros x [_ Hx]. by rewrite elem_of_list_to_set. }
  rewrite Hreg. by destruct choice as [|[]|].
Qed.

Lemma unregistered_nil lsblk (known : list record) :
  (∀ d, d ∈ detect.detectDrives lsblk → detect.d_type d = "part" →
        Some (JStr (detect.d_uuid d)) ∈ uuid_of <$> known) →
  unregistered_of lsblk known = [].
Proof.
  intros Hall. destruct (unregistered_of lsblk known) as [|d rest] eqn:E; [done|].
  assert (Hd : d ∈ unregistered_of lsblk known) by (rewrite E; left).
  unfold unregistered_of in Hd.
  apply list_elem_of_filter in Hd as [Hnew Hd].
  apply list_elem_of_filter in Hd as [Hpart Hd].
  destruct Hnew. by apply Hall.
Qed.

Lemma unregistered_elem lsblk (known : list record) (d : detect.drive) :
  d ∈ detect.detectDrives lsblk → detect.d_type d = "part" →
  Some (JStr (detect.d_uuid d)) ∈ uuid_of <$> known ∨ d ∈ unregistered_of lsblk known.
Proof.
  intros Hd Hpart.
  destruct (decide (Some (JStr (detect.d_uuid d)) ∈ uuid_of <$> known)) as [Hin|Hnin];
    [by left | right].
  unfold unregistered_of. apply list_elem_of_filter. split; [done|].
  by apply list_elem_of_filter.
Qed.

(** X17. "Auto-register all drives", once confirmed, leaves every
    partition of the scan registered, on every store that can be read: the
    records it adds are appended after the existing ones, which are not
    changed, their number is the count it reports, and that count is the
    number of partitions offered when these have distinct uuids.  Running
    it again on the same scan adds nothing. *)
Theorem auto_register_all_registers_partitions clock sys
    (lsblk : option (list detect.blockdev)) (w : world) :
  readable w →
  ∃ count w',
    diskmgt.addDrive clock sys lsblk (diskmgt.AutoAll true) w = Return count w' ∧
    (count ≤ length (unregistered_of lsblk (stored w)))%nat ∧
    (∃ extra, stored w' = stored w ++ extra ∧ length extra = count) ∧
    (∀ d, d ∈ detect.detectDrives lsblk → detect.d_type d = "part" →
          Some (JStr (detect.d_uuid d)) ∈ uuid_of <$> stored w') ∧
    (NoDup (uuid_of <$> stored w) →
     NoDup (detect.d_uuid <$> unregistered_of lsblk (stored w)) →
     count = length (unregistered_of lsblk (stored w))) ∧
    diskmgt.addDrive clock sys lsblk (diskmgt.AutoAll true) w' = Return 0%nat w'.
Proof.
  intros Hr. rewrite addDrive_menu_offers by done.
  destruct (unregistered_of lsblk (stored w)) as [|d0 rest] eqn:Eu.
  - exists 0%nat, (initialized w). split; [done|]. split; [done|].
    split; [exists []; by rewrite stored_initialized, app_nil_r|].
    assert (Hall : ∀ d, d ∈ detect.detectDrives lsblk → detect.d_type d = "part" →
                        Some (JStr (detect.d_uuid d)) ∈ uuid_of <$> stored w).
    { intros d Hd Hpart.
      destruct (unregistered_elem lsblk (stored w) d Hd Hpart) as [Hin|Hin]; [done|].
      rewrite Eu in Hin. by apply elem_of_nil in Hin. }
    split; [by rewrite stored_initialized|]. split; [done|].
    rewrite addDrive_menu_offers, stored_initialized, Eu by solve_readable.
    by rewrite initialized_idem.
  - set (rs := autoregister.autoRegisterDrive sys <$> d0 :: rest).
    destruct (registerEach_run clock rs 0%nat (initialized w) (readable_initialized _ Hr))
      as (k & w' & Hrun & Hr' & Hk & (extra & Hst & Hlen) & Hin & Honly & Hnd & Hi).
    rewrite stored_initialized in *.
    assert (Huu : uuid_of <$> rs = (λ d, Some (JStr (detect.d_uuid d))) <$> (d0 :: rest)).
    { unfold rs. rewrite <- list_fmap_compose. apply list_fmap_ext.
      intros i d _. apply uuid_of_autoRegisterDrive. }
    assert (Hall : ∀ d, d ∈ detect.detectDrives lsblk → detect.d_type d = "part" →
                        Some (JStr (detect.d_uuid d)) ∈ uuid_of <$> stored w').
    { intros d Hd Hpart.
      destruct (unregistered_elem lsblk (stored w) d Hd Hpart) as [Hknown|Hnew].
      - rewrite Hst, fmap_app. apply elem_of_app. by left.
      - rewrite Eu in Hnew.
        rewrite <- (uuid_of_autoRegisterDrive sys d). apply Hin.
        unfold rs. apply list_elem_of_fmap. by exists d. }
    exists k, w'. split; [exact Hrun|].
    split; [unfold rs in Hk; by rewrite length_fmap in Hk|].
    split; [by exists extra|]. split; [exact Hall|]. split.
    + intros Hnd1 Hnd2.
      assert (length rs = length (d0 :: rest)) as <- by (unfold rs; apply length_fmap).
      apply Hnd. rewrite fmap_app. apply NoDup_app. split; [done|]. split.
      * intros u Hu1 Hu2. rewrite Huu in Hu2.
        apply list_elem_of_fmap in Hu2 as (d & -> & Hd).
        assert (Hd' : d ∈ unregistered_of lsblk (stored w)) by by rewrite Eu.
        unfold unregistered_of in Hd'.
        by apply list_elem_of_filter in Hd' as [Hnew _].
      * rewrite Huu.
        replace ((λ d, Some (JStr (detect.d_uuid d))) <$> d0 :: rest)
          with ((λ s, Some (JStr s)) <$> (detect.d_uuid <$> d0 :: rest))
          by by rewrite <- list_fmap_compose.
        apply NoDup_fmap_2; [|done]. intros x y [=]. done.
    + rewrite addDrive_menu_offers, (unregistered_nil lsblk (stored w') Hall)
        by done.
      f_equal. apply Hi, initialized_idem.
Qed.

Lemma auto_register_all_registers_partitions_witness :
  readable fresh ∧
  ∃ count w',
    diskmgt.addDrive frozen_clock quiet_system example_scan (diskmgt.AutoAll true)
      fresh = Return count w' ∧
    diskmgt.addDrive frozen_clock quiet_system example_scan (diskmgt.AutoAll true)
      w' = Return 0%nat w'.
Proof.
  assert (Hr : readable fresh) by done. split; [exact Hr|].
  destruct (auto_register_all_registers_partitions frozen_clock quiet_system
              example_scan fresh Hr) as (count & w' & Hrun & _ & _ & _ & _ & Hagain).
  exists count, w'. split; [exact Hrun | exact Hagain].
Defined.

(** X18. In the "add" menu, Cancel and a declined confirmation change
    neither the collection nor the clock.  Registering by hand a
    partition that the menu offers always succeeds on a store that can be
    read: one record is appended, with the node's uuid, size and device
    and the label, type and purpose that were typed, and it is found
    under its uuid. *)
Theorem add_menu_declined_or_manual clock sys
    (lsblk : option (list detect.blockdev)) (w : world) :
  readable w →
  (∀ choice, choice = diskmgt.Cancel ∨ choice = diskmgt.AutoAll false →
     ∃ w', diskmgt.addDrive clock sys lsblk choice w = Return 0%nat w' ∧
           stored w' = stored w ∧ ticks w' = ticks w) ∧
  (∀ (selectedDrive : detect.drive) (label type purpose : string),
     selectedDrive ∈ unregistered_of lsblk (stored w) →
     ∃ w' r,
       diskmgt.addDrive clock sys lsblk
         (diskmgt.Pick selectedDrive label type purpose) w = Return 1%nat w' ∧
       stored w' = stored w ++ [r] ∧
       r !! "uuid" = Some (JStr (detect.d_uuid selectedDrive)) ∧
       r !! "size" = Some (JStr (detect.d_size selectedDrive)) ∧
       r !! "device" = Some (JStr (detect.d_device selectedDrive)) ∧
       r !! "label" = Some (JStr label) ∧
       r !! "type" = Some (JStr type) ∧
       r !! "purpose" = Some (JStr purpose) ∧
       storage.getDriveByUUID (Some (JStr (detect.d_uuid selectedDrive))) w'
       = Return (Some r) w').
Proof.
  intros Hr. split.
  - intros choice Hc. exists (initialized w). rewrite addDrive_menu_offers by done.
    split; [|split; [apply stored_initialized | done]].
    destruct (unregistered_of lsblk (stored w)); [done|].
    by destruct Hc as [-> | ->].
  - intros selectedDrive label type purpose Hsel.
    rewrite addDrive_menu_offers by done.
    destruct (unregistered_of lsblk (stored w)) as [|d0 rest] eqn:Eu;
      [by apply elem_of_nil in Hsel|].
    rewrite <- Eu in Hsel. unfold unregistered_of in Hsel.
    apply list_elem_of_filter in Hsel as [Hnew _].
    set (driveData := <["uuid" := JStr (detect.d_uuid selectedDrive)]> _).
    assert (Hu : uuid_of driveData = Some (JStr (detect.d_uuid selectedDrive))).
    { unfold uuid_of, driveData. apply lookup_insert_eq. }
    rewrite addDrive_run by by apply readable_initialized.
    rewrite stored_initialized.
    rewrite (proj2 (existsb_uuid_false _ _)) by by rewrite Hu.
    eexists _, (stamp (clock (ticks (initialized w))) driveData).
    split; [reflexivity|]. split; [done|].
    do 6 (split; [rewrite stamp_other by done; unfold driveData; by simplify_map_eq|]).
    rewrite getDriveByUUID_run by solve_readable. cbn -[find]. f_equal.
    apply find_app_last; [done|]. by rewrite uuid_of_stamp.
Qed.

Lemma add_menu_declined_or_manual_witness :
  readable fresh ∧
  (∃ w', diskmgt.addDrive frozen_clock quiet_system example_scan diskmgt.Cancel fresh
         = Return 0%nat w' ∧ stored w' = stored fresh ∧ ticks w' = ticks fresh) ∧
  (detect.entry sdb1 ∈ unregistered_of example_scan (stored fresh) ∧
   ∃ w' r,
     diskmgt.addDrive frozen_clock quiet_system example_scan
       (diskmgt.Pick (detect.entry sdb1) "Data" "USB" "Backups") fresh
     = Return 1%nat w' ∧
     stored w' = stored fresh ++ [r] ∧
     r !! "uuid" = Some (JStr "abc-123") ∧
     r !! "label" = Some (JStr "Data")).
Proof.
  assert (Hr : readable fresh) by exact I. split; [exact Hr|]. split.
  - destruct (add_menu_declined_or_manual frozen_clock quiet_system example_scan
                fresh Hr) as (Hdeclined & _).
    apply Hdeclined. left. reflexivity.
  - assert (Hsel : detect.entry sdb1 ∈ unregistered_of example_scan (stored fresh)).
    { vm_compute. left. }
    split; [exact Hsel|].
    destruct (add_menu_declined_or_manual frozen_clock quiet_system example_scan
                fresh Hr) as (_ & Hpick).
    destruct (Hpick (detect.entry sdb1) "Data" "USB" "Backups" Hsel)
      as (w' & r & Hrun & Hst & Huuid & _ & _ & Hlabel & _).
    exists w', r. split; [exact Hrun|]. split; [exact Hst|].
    split; [exact Huuid | exact Hlabel].
Defined.

(** * Further properties of the registry table *)

(** X19. In the registry table every row has a label that is not blank
    ("Unlabeled" stands in for a missing or empty one), a row that is not
    connected shows no mount point, and a mount point that is shown is
    that of a live node with the uuid of the row's record, never the
    text "not mounted". *)
Theorem registry_rows_are_presentable
    (detected : list detect.drive) (known : list record) i (r : record) :
  known !! i = Some r →
  ∃ row, display.displayDriveList detected known !! i = Some row ∧
         truthy (Some (display.row_label row)) = true ∧
         (truthy (r !! "label") = true →
          Some (display.row_label row) = r !! "label") ∧
         (display.row_connected row = false → display.row_mount row = None) ∧
         (∀ m, display.row_mount row = Some m →
               m ≠ "not mounted" ∧
               ∃ d, d ∈ detected ∧ detect.d_mountpoint d = m ∧
                    Some (JStr (detect.d_uuid d)) = uuid_of r).
Proof.
  intros Hi. unfold display.displayDriveList.
  rewrite list_lookup_imap, Hi. cbn. eexists. split; [reflexivity|]. cbn.
  split; [|split; [|split]].
  - destruct (truthy (r !! "label")) eqn:E; [|done].
    by destruct (r !! "label").
  - intros Ht. rewrite Ht. by destruct (r !! "label").
  - by intros ->.
  - intros m. destruct (bool_decide _); [|done].
    destruct (find _ detected) as [d|] eqn:Ef; [|done].
    apply find_some in Ef as [Hd Heq]. apply strict_eq_true in Heq.
    destruct (negb _) eqn:En; [|done]. intros [= <-]. split.
    + intros Hm. rewrite Hm in En. done.
    + exists d. split; [by apply list_elem_of_In | done].
Qed.

Lemma registry_rows_are_presentable_witness :
  let r : record := <["uuid" := JStr "abc-123"]> ∅ in
  ∃ row, display.displayDriveList (detect.detectDrives example_scan) [r] !! 0%nat
         = Some row ∧
         truthy (Some (display.row_label row)) = true.
Proof.
  intros r.
  destruct (registry_rows_are_presentable (detect.detectDrives example_scan) [r]
              0%nat r eq_refl) as (row & Hrow & Hlabel & _).
  exists row. split; [exact Hrow | exact Hlabel].
Defined.

(** * Further properties of the edit, remove and search menus *)

Lemma list_find_selected (ds : list record) i r :
  NoDup (uuid_of <$> ds) → ds !! i = Some r →
  list_find (λ d, uuid_of d = uuid_of r) ds = Some (i, r).
Proof.
  intros Hnd Hi. apply list_find_first_uuid; [done | done |].
  intros j r' Hj Hlt Heq.
  assert (j = i) by (eapply same_uuid_same_index; eauto). lia.
Qed.

Lemma filter_selected (ds : list record) i r :
  NoDup (uuid_of <$> ds) → ds !! i = Some r →
  filter (λ d, uuid_of d ≠ uuid_of r) ds = delete i ds.
Proof.
  revert i. induction ds as [|d ds IH]; intros i Hnd Hi; [done|].
  rewrite fmap_cons in Hnd. apply NoDup_cons in Hnd as [Hd Hnd].
  destruct i as [|i]; cbn in Hi.
  - injection Hi as ->. rewrite filter_cons_False by (intros H; by apply H).
    change (delete 0%nat (r :: ds)) with ds. by apply filter_absent_id.
  - change (delete (S i) (d :: ds)) with (d :: delete i ds).
    rewrite filter_cons_True.
    + f_equal. by apply IH.
    + intros Heq. apply Hd. rewrite Heq.
      apply list_elem_of_fmap. exists r. split; [done|].
      by eapply list_elem_of_lookup_2.
Qed.

(** X20. The "edit" menu changes nothing beyond the field it is asked to
    change.  On a store with distinct uuids, leaving the menu early keeps
    the collection; choosing the record at a position and one of the
    fields label, type, purpose succeeds and sets that field of that very
    record, and no record changes its uuid, first_seen or last_seen, so
    the uuids stay distinct and no clock is read. *)
Theorem edit_menu_sets_chosen_field
    (selected : option nat) (field : option diskmgt.edit_field)
    (newValue : string) (w : world) :
  distinct_uuids w →
  (diskmgt.pick (stored w) selected = None ∨ field = None →
   ∃ w', diskmgt.editDrive selected field newValue w = Return None w' ∧
         stored w' = stored w) ∧
  (∀ i r f, selected = Some i → field = Some f → stored w !! i = Some r →
     ∃ w',
       diskmgt.editDrive selected field newValue w = Return (Some true) w' ∧
       stored w' = <[i := <[diskmgt.field_name f := JStr newValue]> r]> (stored w) ∧
       distinct_uuids w' ∧ ticks w' = ticks w ∧
       ∀ j r', stored w' !! j = Some r' →
         ∃ r0, stored w !! j = Some r0 ∧
               r' !! "uuid" = r0 !! "uuid" ∧
               r' !! "first_seen" = r0 !! "first_seen" ∧
               r' !! "last_seen" = r0 !! "last_seen").
Proof.
  intros [Hr Hnd]. split.
  - intros Hleave. exists (initialized w).
    split; [|apply stored_initialized].
    unfold diskmgt.editDrive, mbind, M_bind. rewrite getAllDrives_run by done.
    cbn [length_then_method mret M_ret].
    destruct (stored w) as [|d ds] eqn:Es; [done|].
    destruct Hleave as [-> | ->]; [done|].
    by destruct (diskmgt.pick _ _).
  - intros i r f -> -> Hi.
    unfold diskmgt.editDrive, mbind, M_bind. rewrite getAllDrives_run by done.
    cbn [length_then_method mret M_ret].
    destruct (stored w) as [|d ds] eqn:Es; [done|]. rewrite <- Es in *.
    unfold diskmgt.pick. cbn [mbind option_bind]. rewrite Hi.
    rewrite updateDriveField_run by by apply readable_initialized.
    rewrite stored_initialized, (list_find_selected _ i r Hnd Hi).
    rewrite set_property_set by (left; by destruct f).
    eexists. split; [reflexivity|]. rewrite stored_written.
    assert (Hf : ∀ key, key = "uuid" ∨ key = "first_seen" ∨ key = "last_seen" →
                        <[diskmgt.field_name f := JStr newValue]> r !! key = r !! key).
    { intros key Hkey. apply lookup_insert_ne.
      destruct f; destruct Hkey as [-> | [-> | ->]]; done. }
    split; [done|]. split; [|split; [done|]].
    + split; [apply readable_written|]. rewrite stored_written, list_fmap_insert.
      rewrite list_insert_id; [done|].
      rewrite list_lookup_fmap, Hi. cbn. f_equal. symmetry. apply Hf. by left.
    + intros j r' Hj. apply list_lookup_insert_Some in Hj as [(-> & <- & _) | (_ & Hj)].
      * exists r. split; [done|]. repeat split; apply Hf; auto.
      * by exists r'.
Qed.

Lemma edit_menu_sets_chosen_field_witness :
  let r : record := <["uuid" := JStr "abc-123"]> (<["label" := JStr "Test"]> ∅) in
  let w := written [stamp (frozen_clock 0) r] 1 fresh in
  distinct_uuids w ∧
  (∃ w', diskmgt.editDrive (Some 0%nat) None "x" w = Return None w' ∧
         stored w' = stored w) ∧
  (∃ w', diskmgt.editDrive (Some 0%nat) (Some diskmgt.EditLabel) "Renamed" w
         = Return (Some true) w' ∧
         stored w' = [<["label" := JStr "Renamed"]> (stamp (frozen_clock 0) r)] ∧
         ticks w' = ticks w).
Proof.
  intros r w.
  assert (Hd : distinct_uuids w).
  { split; [exact I|]. refine (bool_decide_unpack _ _). by vm_compute. }
  split; [exact Hd|]. split.
  - destruct (edit_menu_sets_chosen_field (Some 0%nat) None "x" w Hd) as (Hleave & _).
    apply Hleave. right. reflexivity.
  - destruct (edit_menu_sets_chosen_field (Some 0%nat) (Some diskmgt.EditLabel)
                "Renamed" w Hd) as (_ & Hedit).
    destruct (Hedit 0%nat (stamp (frozen_clock 0) r) diskmgt.EditLabel
                eq_refl eq_refl eq_refl) as (w' & Hrun & Hst & _ & Hticks & _).
    exists w'. split; [exact Hrun|]. split; [exact Hst | exact Hticks].
Defined.

(** X21. The "remove" menu removes the record that was picked and no
    other.  On a store with distinct uuids, Cancel or a declined
    confirmation keeps the collection; a confirmed removal of the record
    at a position leaves the collection without that position, the other
    records in their order, and the uuid of the removed record is no
    longer found. *)
Theorem remove_menu_removes_selected
    (selected : option nat) (confirm : bool) (w : world) :
  distinct_uuids w →
  (diskmgt.pick (stored w) selected = None ∨ confirm = false →
   ∃ w', diskmgt.removeDrive selected confirm w = Return false w' ∧
         stored w' = stored w) ∧
  (∀ i r, selected = Some i → confirm = true → stored w !! i = Some r →
     ∃ w',
       diskmgt.removeDrive selected confirm w = Return true w' ∧
       stored w' = delete i (stored w) ∧
       distinct_uuids w' ∧
       storage.getDriveByUUID (uuid_of r) w' = Return None w').
Proof.
  intros [Hr Hnd]. split.
  - intros Hleave. exists (initialized w).
    split; [|apply stored_initialized].
    unfold diskmgt.removeDrive, mbind, M_bind. rewrite getAllDrives_run by done.
    cbn [length_then_method mret M_ret].
    destruct (stored w) as [|d ds] eqn:Es; [done|].
    destruct Hleave as [-> | ->]; [done|].
    by destruct (diskmgt.pick _ _).
  - intros i r -> -> Hi.
    unfold diskmgt.removeDrive, mbind, M_bind. rewrite getAllDrives_run by done.
    cbn [length_then_method mret M_ret].
    destruct (stored w) as [|d ds] eqn:Es; [done|]. rewrite <- Es in *.
    unfold diskmgt.pick. cbn [mbind option_bind]. rewrite Hi.
    rewrite removeDrive_run by by apply readable_initialized.
    rewrite stored_initialized, (filter_selected _ i r Hnd Hi).
    eexists. split; [reflexivity|]. rewrite stored_written. split; [done|].
    split.
    + split; [apply readable_written|]. rewrite stored_written.
      eapply sublist_NoDup; [exact Hnd|]. apply fmap_sublist, sublist_delete.
    + rewrite getDriveByUUID_run by solve_readable. cbn -[find]. f_equal.
      apply find_none_uuid. rewrite <- (filter_selected _ i r Hnd Hi).
      apply uuids_filter_absent.
Qed.

Lemma remove_menu_removes_selected_witness :
  let r : record := <["uuid" := JStr "abc-123"]> (<["label" := JStr "Test"]> ∅) in
  let w := written [stamp (frozen_clock 0) r] 1 fresh in
  distinct_uuids w ∧
  (∃ w', diskmgt.removeDrive (Some 0%nat) false w = Return false w' ∧
         stored w' = stored w) ∧
  (∃ w', diskmgt.removeDrive (Some 0%nat) true w = Return true w' ∧
         stored w' = [] ∧
         storage.getDriveByUUID (Some (JStr "abc-123")) w' = Return None w').
Proof.
  intros r w.
  assert (Hd : distinct_uuids w).
  { split; [exact I|]. refine (bool_decide_unpack _ _). by vm_compute. }
  split; [exact Hd|]. split.
  - destruct (remove_menu_removes_selected (Some 0%nat) false w Hd) as (Hleave & _).
    apply Hleave. right. reflexivity.
  - destruct (remove_menu_removes_selected (Some 0%nat) true w Hd) as (_ & Hremove).
    destruct (Hremove 0%nat (stamp (frozen_clock 0) r) eq_refl eq_refl eq_refl)
      as (w' & Hrun & Hst & _ & Hget).
    exists w'. split; [exact Hrun|]. split; [exact Hst | exact Hget].
Defined.

Lemma prefix_empty (s : string) : String.prefix "" s = true.
Proof. by destruct s. Qed.

Lemma prefix_append (q a b : string) :
  String.prefix q a = true → String.prefix q (a +:+ b) = true.
Proof.
  revert a. induction q as [|c q IH]; intros a; [intros _; apply prefix_empty|].
  destruct a as [|c' a]; [done|].
  change (String c' a +:+ b) with (String c' (a +:+ b)). cbn.
  destruct (ascii_dec c c'); [apply IH | done].
Qed.

Lemma includes_append_l (q a b : string) :
  js.includes q a = true → js.includes q (a +:+ b) = true.
Proof.
  induction a as [|c a IH].
  - cbn. rewrite orb_false_r. intros Hq. destruct q; [|done].
    destruct b; cbn; by rewrite ?prefix_empty.
  - change (String c a +:+ b) with (String c (a +:+ b)).
    cbn [js.includes]. intros [Hp | Hi]%orb_true_iff.
    + apply (prefix_append _ _ b) in Hp.
      change (String c a +:+ b) with (String c (a +:+ b)) in Hp. by rewrite Hp.
    + rewrite (IH Hi). apply orb_true_r.
Qed.

Lemma includes_append_r (q a b : string) :
  js.includes q b = true → js.includes q (a +:+ b) = true.
Proof.
  intros Hb. induction a as [|c a IH]; [done|].
  change (String c a +:+ b) with (String c (a +:+ b)).
  cbn [js.includes]. rewrite IH. apply orb_true_r.
Qed.

Lemma toLowerCase_append (a b : string) :
  js.toLowerCase (a +:+ b) = js.toLowerCase a +:+ js.toLowerCase b.
Proof.
  induction a as [|c a IH]; [done|].
  change (String c a +:+ b) with (String c (a +:+ b)). cbn. by rewrite IH.
Qed.

Lemma searchText_includes (q : string) (d : record) (key : string) :
  key ∈ ["label"; "type"; "purpose"; "device"] →
  js.includes q (js.toLowerCase (diskmgt.to_text (d !! key))) = true →
  js.includes q (diskmgt.searchText d) = true.
Proof.
  intros Hkey Hq. unfold diskmgt.searchText. rewrite !toLowerCase_append.
  repeat (apply elem_of_cons in Hkey as [-> | Hkey]);
    [| | | | by apply elem_of_nil in Hkey].
  - by apply includes_append_l.
  - apply includes_append_r, includes_append_r. by apply includes_append_l.
  - do 4 apply includes_append_r. by apply includes_append_l.
  - by do 6 apply includes_append_r.
Qed.

Lemma filter_sublist {A} (f : A → bool) (l : list A) :
  List.filter f l `sublist_of` l.
Proof.
  induction l as [|x l IH]; [done|]. cbn.
  destruct (f x); [by apply sublist_skip | by apply sublist_cons].
Qed.

Lemma searchDrives_run (query : string) method (w : world) :
  js.trim query ≠ "" → ¬ misshapen w →
  diskmgt.searchDrives query method w =
  Return (Some
    match method with
    | diskmgt.Semantic (Some matchingUUIDs) =>
        List.filter (λ d, bool_decide (uuid_of d ∈ (Some <$> matchingUUIDs)))
          (stored w)
    | _ => List.filter (diskmgt.basic_match (js.toLowerCase query)) (stored w)
    end) (initialized w).
Proof.
  intros Hq Hm. unfold diskmgt.searchDrives.
  rewrite (proj2 (String.eqb_neq _ _) Hq).
  unfold mbind, M_bind. rewrite getAllDrives_shaped by done.
  by destruct method as [|[uuids|]].
Qed.

Lemma searchDrives_misshapen (query : string) method (w : world) :
  js.trim query ≠ "" → misshapen w →
  diskmgt.searchDrives query method w = Throw TypeError (initialized w).
Proof.
  intros Hq Hm. unfold diskmgt.searchDrives.
  rewrite (proj2 (String.eqb_neq _ _) Hq).
  unfold mbind, M_bind. rewrite getAllDrives_any.
  destruct_store w; try (by destruct Hm); by destruct method as [|[uuids|]].
Qed.

Lemma misshapen_or_not w : misshapen w ∨ ¬ misshapen w.
Proof. destruct_store w; cbn; tauto. Qed.

Lemma basic_match_lxc_lxd (d : record) :
  diskmgt.basic_match "lxc" d = diskmgt.basic_match "lxd" d.
Proof.
  unfold diskmgt.basic_match.
  replace (String.eqb "lxc" "lxc") with true by (by vm_compute).
  replace (String.eqb "lxd" "lxd") with true by (by vm_compute).
  replace (String.eqb "lxc" "lxd") with false by (by vm_compute).
  replace (String.eqb "lxd" "lxc") with false by (by vm_compute).
  replace (String.eqb "lxc" "container") with false by (by vm_compute).
  replace (String.eqb "lxd" "container") with false by (by vm_compute).
  replace (String.eqb "lxc" "os") with false by (by vm_compute).
  replace (String.eqb "lxd" "os") with false by (by vm_compute).
  replace (String.eqb "lxc" "system") with false by (by vm_compute).
  replace (String.eqb "lxd" "system") with false by (by vm_compute).
  replace (String.eqb "lxc" "root") with false by (by vm_compute).
  replace (String.eqb "lxd" "root") with false by (by vm_compute).
  cbn [andb].
  destruct (js.includes "lxc" _), (js.includes "lxd" _); reflexivity.
Qed.

(** X22. The search answers with records of the registry only, in
    registry order, and never touches the store: a blank query ends the
    action before the store is read.  The basic search ignores the case
    of the query and finds every record whose label, type, purpose or
    device contains it; "lxc" and "lxd" find the same records; and when
    the semantic search throws, the answer is that of the basic search.
    On a backing file whose [drives] is [undefined] or a primitive, every
    search for a query that is not blank ends in a TypeError instead. *)
Theorem search_finds_registry_records (query : string) (w : world) :
  (js.trim query = "" →
   ∀ method, diskmgt.searchDrives query method w = Return None w) ∧
  (js.trim query ≠ "" → ¬ misshapen w →
   ∀ method, ∃ results,
     diskmgt.searchDrives query method w = Return (Some results) (initialized w) ∧
     results `sublist_of` stored w ∧
     (method = diskmgt.Basic ∨ method = diskmgt.Semantic None →
      ∀ d key, d ∈ stored w → key ∈ ["label"; "type"; "purpose"; "device"] →
        js.includes (js.toLowerCase query)
          (js.toLowerCase (diskmgt.to_text (d !! key))) = true →
        d ∈ results) ∧
     (∀ matchingUUIDs, method = diskmgt.Semantic (Some matchingUUIDs) →
      ∀ d, d ∈ results ↔ d ∈ stored w ∧ ∃ v, v ∈ matchingUUIDs ∧ uuid_of d = Some v)) ∧
  (js.trim query ≠ "" → misshapen w →
   ∀ method, diskmgt.searchDrives query method w = Throw TypeError (initialized w)) ∧
  diskmgt.searchDrives query (diskmgt.Semantic None) w
  = diskmgt.searchDrives query diskmgt.Basic w ∧
  diskmgt.searchDrives "lxc" diskmgt.Basic w
  = diskmgt.searchDrives "lxd" diskmgt.Basic w.
Proof.
  split; [|split; [|split; [|split]]].
  - intros Hblank method. unfold diskmgt.searchDrives. by rewrite Hblank.
  - intros Hq Hm method. rewrite searchDrives_run by done.
    eexists. split; [reflexivity|]. split; [|split].
    + destruct method as [|[uuids|]]; apply filter_sublist.
    + intros Hmethod d key Hd Hkey Hinc.
      assert (Hin : d ∈ List.filter (diskmgt.basic_match (js.toLowerCase query))
                        (stored w)).
      { apply list_elem_of_In, filter_In. split; [by apply list_elem_of_In|].
        unfold diskmgt.basic_match.
        by rewrite (searchText_includes _ _ key Hkey Hinc). }
      by destruct Hmethod as [-> | ->].
    + intros uuids -> d. rewrite list_elem_of_In, filter_In, <- list_elem_of_In.
      rewrite bool_decide_eq_true, list_elem_of_fmap. split.
      * intros (Hd & v & Hv & Hin). eauto.
      * intros (Hd & v & Hin & Hv). eauto.
  - intros Hq Hm method. by apply searchDrives_misshapen.
  - done.
  - assert (Hc : js.trim "lxc" ≠ "") by (vm_compute; discriminate).
    assert (Hd : js.trim "lxd" ≠ "") by (vm_compute; discriminate).
    destruct (misshapen_or_not w) as [Hm | Hm].
    + by rewrite !searchDrives_misshapen.
    + rewrite !searchDrives_run by done. do 2 f_equal.
      replace (js.toLowerCase "lxc") with "lxc" by (by vm_compute).
      replace (js.toLowerCase "lxd") with "lxd" by (by vm_compute).
      apply filter_ext. intros d. apply basic_match_lxc_lxd.
Qed.

Lemma search_finds_registry_records_witness :
  let empty_object := World true (Some (Text (Data (NoArray None)))) 0 in
  (js.trim "backup" ≠ "" ∧ ¬ misshapen fresh ∧
   ∃ results,
     diskmgt.searchDrives "backup" diskmgt.Basic fresh
     = Return (Some results) (initialized fresh) ∧
     results `sublist_of` stored fresh) ∧
  (js.trim "  " = "" ∧
   diskmgt.searchDrives "  " diskmgt.Basic fresh = Return None fresh) ∧
  (misshapen empty_object ∧
   diskmgt.searchDrives "backup" (diskmgt.Semantic (Some [JStr "abc-123"]))
     empty_object = Throw TypeError empty_object).
Proof.
  intros empty_object.
  assert (Hq : js.trim "backup" ≠ "") by (vm_compute; discriminate).
  split; [|split].
  - assert (Hm : ¬ misshapen fresh) by (intros []).
    split; [exact Hq|]. split; [exact Hm|].
    destruct (search_finds_registry_records "backup" fresh) as (_ & Hsearch & _).
    destruct (Hsearch Hq Hm diskmgt.Basic) as (results & Hrun & Hsub & _).
    exists results. split; [exact Hrun | exact Hsub].
  - assert (Hb : js.trim "  " = "") by (vm_compute; reflexivity).
    split; [exact Hb|].
    destruct (search_finds_registry_records "  " fresh) as (Hblank & _).
    exact (Hblank Hb diskmgt.Basic).
  - split; [exact I|].
    destruct (search_finds_registry_records "backup" empty_object)
      as (_ & _ & Hno & _).
    exact (Hno Hq I (diskmgt.Semantic (Some [JStr "abc-123"]))).
Defined.

Lemma addDisk_fold (detected : list detect.drive) :
  ∀ (disks : list (string * string)) (seen : gset string),
  (∀ x, x ∈ seen ↔ x ∈ choice_key <$> disks) →
  NoDup (choice_key <$> disks) →
  ∃ disks' seen',
    fold_left diskmgt.addDisk detected (disks, seen) = (disks', seen') ∧
    (∀ x, x ∈ seen' ↔ x ∈ choice_key <$> disks') ∧
    NoDup (choice_key <$> disks') ∧
    (∀ c, c ∈ disks' →
          c ∈ disks ∨ ∃ d, d ∈ detected ∧ detect.d_type d = "disk" ∧
                           c = diskmgt.diskChoice d) ∧
    (∀ c, c ∈ disks → c ∈ disks') ∧
    (∀ d, d ∈ detected → detect.d_type d = "disk" →
          js.strip_partition_suffix (detect.d_device d) ∈ choice_key <$> disks').
Proof.
  induction detected as [|d detected IH]; intros disks seen Hseen Hnd.
  - exists disks, seen. split; [done|]. split; [done|]. split; [done|].
    split; [by left|]. split; [done|]. by intros d ?%not_elem_of_nil.
  - cbn [fold_left]. unfold diskmgt.addDisk at 2.
    destruct (bool_decide _ && String.eqb (detect.d_type d) "disk") eqn:E.
    + apply andb_true_iff in E as [Hnew Hdisk].
      apply bool_decide_eq_true in Hnew. apply String.eqb_eq in Hdisk.
      destruct (IH (disks ++ [diskmgt.diskChoice d])
                  ({[js.strip_partition_suffix (detect.d_device d)]} ∪ seen))
        as (disks' & seen' & Hrun & Hseen' & Hnd' & Hfrom & Hkeep & Hcover).
      { intros x. rewrite elem_of_union, elem_of_singleton, fmap_app, elem_of_app.
        rewrite Hseen. cbn. rewrite list_elem_of_singleton. tauto. }
      { rewrite fmap_app. apply NoDup_app. split; [done|]. split.
        - intros x Hx Hx'. cbn in Hx'. apply list_elem_of_singleton in Hx'. subst x.
          apply Hnew. by apply Hseen.
        - apply NoDup_singleton. }
      exists disks', seen'. split; [done|]. split; [done|]. split; [done|].
      split; [|split].
      * intros c Hc. destruct (Hfrom c Hc) as [Hin | (d' & Hd' & Ht & ->)].
        -- apply elem_of_app in Hin as [Hin|Hin]; [by left|].
           apply list_elem_of_singleton in Hin. subst c. right. exists d.
           split; [left | done].
        -- right. exists d'. split; [by right | done].
      * intros c Hc. apply Hkeep, elem_of_app. by left.
      * intros d' [-> | Hd']%elem_of_cons Ht; [|by apply Hcover].
        apply list_elem_of_fmap. exists (diskmgt.diskChoice d). split; [done|].
        apply Hkeep, elem_of_app. right. left.
    + destruct (IH disks seen Hseen Hnd)
        as (disks' & seen' & Hrun & Hseen' & Hnd' & Hfrom & Hkeep & Hcover).
      exists disks', seen'. split; [done|]. split; [done|]. split; [done|].
      split; [|split; [done|]].
      * intros c Hc. destruct (Hfrom c Hc) as [Hin | (d' & Hd' & Ht & ->)];
          [by left | right]. exists d'. split; [by right | done].
      * intros d' [-> | Hd']%elem_of_cons Ht; [|by apply Hcover].
        apply andb_false_iff in E as [Hseen0 | Hnot].
        -- apply bool_decide_eq_false in Hseen0. apply dec_stable in Hseen0.
           apply Hseen in Hseen0.
           apply list_elem_of_fmap in Hseen0 as (c & Hc & Hin).
           apply list_elem_of_fmap. exists c. split; [done | by apply Hkeep].
        -- apply String.eqb_neq in Hnot. done.
Qed.

(** X23. The disk prompt of "Detailed disk information" lists whole disks
    of the scan only, and one entry for each device path taken without
    its trailing digits (and the "p" before them): every disk of the scan
    is represented by an entry with the same shortened path, and no two
    entries share one - so of two disks that differ in their trailing
    number only, the first is listed and the second is not. *)
Theorem disk_prompt_lists_one_entry_per_disk (detected : list detect.drive) :
  (∀ c, c ∈ diskmgt.diskChoices detected →
        ∃ d, d ∈ detected ∧ detect.d_type d = "disk" ∧ c = diskmgt.diskChoice d) ∧
  NoDup (choice_key <$> diskmgt.diskChoices detected) ∧
  (∀ d, d ∈ detected → detect.d_type d = "disk" →
        js.strip_partition_suffix (detect.d_device d)
        ∈ choice_key <$> diskmgt.diskChoices detected).
Proof.
  unfold diskmgt.diskChoices.
  destruct (addDisk_fold detected [] ∅) as
    (disks' & seen' & Hrun & _ & Hnd & Hfrom & _ & Hcover).
  { intros x. cbn. set_solver. }
  { constructor. }
  rewrite Hrun. cbn. split; [|split; [done | done]].
  intros c Hc. destruct (Hfrom c Hc) as [Hin|Hd]; [by apply elem_of_nil in Hin | done].
Qed.

(** * Further properties of the size formats *)

Lemma toFixed2_rung (b : Z) (k : nat) :
  lxcinfo.toFixed2 (rung (inject_Z b) k) =
  let n := ((200 * b + 1024 ^ Z.of_nat k) / (2 * 1024 ^ Z.of_nat k))%Z in
  pretty (n / 100)%Z +:+ "." +:+ lxcinfo.two_digits (n mod 100)%Z.
Proof.
  unfold lxcinfo.toFixed2. rewrite rung_value.
  unfold Qfloor, Qplus, Qmult. cbn [Qnum Qden].
  rewrite !Pos2Z.inj_mul, !pow1024_Z. cbn zeta.
  replace (b * 100 * 2 + 1 * (1024 ^ Z.of_nat k * 1))%Z
    with (200 * b + 1024 ^ Z.of_nat k)%Z by lia.
  replace (1024 ^ Z.of_nat k * 1 * 2)%Z with (2 * 1024 ^ Z.of_nat k)%Z by lia.
  reflexivity.
Qed.

(** X24. formatBytes of the container-storage summary and formatSize of
    the scanner agree on the unit for every byte count: both stop at the
    first unit for which the size is below 1024, or at TB.  formatBytes
    prints the size divided by that power of 1024 rounded to two
    decimals, a space, and the unit, where formatSize prints one decimal
    and no space. *)
Theorem formatBytes_same_unit_two_decimals (bytes : N) :
  ∃ (k : nat) (unit : string),
    lxcinfo.units !! k = Some unit ∧
    (∀ j, (j < k)%nat → (1024 ^ Z.of_nat (S j) ≤ Z.of_N bytes)%Z) ∧
    ((S k < length lxcinfo.units)%nat → (Z.of_N bytes < 1024 ^ Z.of_nat (S k))%Z) ∧
    let d := (2 * 1024 ^ Z.of_nat k)%Z in
    let n1 := ((20 * Z.of_N bytes + 1024 ^ Z.of_nat k) / d)%Z in
    let n2 := ((200 * Z.of_N bytes + 1024 ^ Z.of_nat k) / d)%Z in
    detect.formatSize bytes
    = (pretty (n1 / 10)%Z +:+ "." +:+ pretty (n1 mod 10)%Z) +:+ unit ∧
    lxcinfo.formatBytes bytes
    = (pretty (n2 / 100)%Z +:+ "." +:+ lxcinfo.two_digits (n2 mod 100)%Z)
      +:+ " " +:+ unit.
Proof.
  unfold detect.formatSize, lxcinfo.formatBytes, detect.units, lxcinfo.units.
  destruct (ladder_rung ["KB"; "MB"; "GB"; "TB"] (inject_Z (Z.of_N bytes)) "B")
    as (k & Hk & Hl & Hstop & Hgo).
  rewrite Hl. exists k, (nth k ["B"; "KB"; "MB"; "GB"; "TB"] "").
  split; [|split; [|split]].
  - cbn in Hk. do 5 (destruct k as [|k]; [reflexivity|]). lia.
  - intros j Hj. specialize (Hgo j Hj). rewrite Qle_bool_rung in Hgo.
    by apply Z.leb_le.
  - intros Hlt. cbn in Hlt. rewrite Qle_bool_rung in Hstop.
    apply Z.leb_gt, Hstop. cbn. lia.
  - cbn zeta. by rewrite toFixed1_rung, toFixed2_rung.
Qed.

(** * Properties of the API key store *)

(** X25. The API key survives the round trip through the configuration
    file when that file is absent, does not parse or holds an object:
    without a key in the environment, the key that is saved is the key
    read back, and saving keeps every other setting of an object.  A file
    that holds another value never takes the key: on [null] saveApiKey
    raises a TypeError and writes nothing, on a number, a string, a
    boolean or an array it returns and writes the value back, and
    getApiKey finds no key afterwards.  Saving the empty key ("Remove API
    key") therefore leaves the AI features off on each of these files.  A
    key in the environment always wins, so removing the saved key does
    not turn the AI features off then. *)
Theorem api_key_round_trip (apiKey : string) (e : claudeHelper.env) :
  (no_env_key e → apiKey ≠ "" → takes_settings e →
   ∃ e', claudeHelper.saveApiKey apiKey e = claudeHelper.Done e' ∧
         claudeHelper.getApiKey e' = Some (JStr apiKey) ∧
         claudeHelper.isAIAvailable e' = true) ∧
  (no_env_key e →
   claudeHelper.isAIAvailable
     (claudeHelper.env_of (claudeHelper.saveApiKey "" e)) = false) ∧
  (no_env_key e → ¬ takes_settings e →
   claudeHelper.config_file (claudeHelper.env_of (claudeHelper.saveApiKey apiKey e))
   = claudeHelper.config_file e ∧
   claudeHelper.getApiKey (claudeHelper.env_of (claudeHelper.saveApiKey apiKey e))
   = None ∧
   ((∃ e', claudeHelper.saveApiKey apiKey e = claudeHelper.Raised TypeError e') ↔
    claudeHelper.config_file e = Some (claudeHelper.ConfigPrimitive JNull))) ∧
  (∀ config, claudeHelper.config_file e = Some (claudeHelper.Config config) →
     ∃ e' saved,
       claudeHelper.saveApiKey apiKey e = claudeHelper.Done e' ∧
       claudeHelper.config_file e' = Some (claudeHelper.Config saved) ∧
       ∀ setting, setting ≠ "anthropicApiKey" → saved !! setting = config !! setting) ∧
  (∀ c key, claudeHelper.ANTHROPIC_API_KEY e = Some (String c key) →
     claudeHelper.getApiKey (claudeHelper.env_of (claudeHelper.saveApiKey apiKey e))
     = Some (JStr (String c key)) ∧
     claudeHelper.isAIAvailable
       (claudeHelper.env_of (claudeHelper.saveApiKey "" e)) = true).
Proof.
  destruct e as [key dir file].
  unfold no_env_key, takes_settings, claudeHelper.isAIAvailable,
    claudeHelper.getApiKey, claudeHelper.saveApiKey.
  cbn [claudeHelper.ANTHROPIC_API_KEY claudeHelper.config_file].
  split; [|split; [|split; [|split]]].
  - intros Henv Hkey Hfile.
    assert (Hread : truthy (Some (JStr apiKey)) = true) by by destruct apiKey.
    destruct file as [[|config|v|items]|]; try (by destruct Hfile);
      eexists; (split; [reflexivity|]); cbn;
      destruct Henv as [-> | ->]; rewrite lookup_insert_eq, Hread; done.
  - intros Henv.
    destruct file as [[|config|[| | |]|items]|]; cbn;
      destruct Henv as [-> | ->]; rewrite ?lookup_insert_eq; done.
  - intros Henv Hfile.
    destruct file as [[|config|v|items]|]; try (by destruct Hfile; exact I).
    + split; [by destruct v|]. split.
      * destruct v; cbn; by destruct Henv as [-> | ->].
      * destruct v; split; try (intros [e' [=]]); try (intros [=]);
          try done; by eexists.
    + split; [done|]. split; [cbn; by destruct Henv as [-> | ->]|].
      split; [intros [e' [=]] | intros [=]].
  - intros config [= ->]. eexists _, _. split; [reflexivity|]. cbn.
    split; [reflexivity|]. intros setting Hne. by apply lookup_insert_ne.
  - intros c k ->. split; by destruct file as [[|config|[| | |]|items]|].
Qed.

Lemma api_key_round_trip_witness :
  let e := claudeHelper.Env None false (Some claudeHelper.BadConfig) in
  let e0 := claudeHelper.Env None true
              (Some (claudeHelper.ConfigPrimitive JNull)) in
  (no_env_key e ∧ takes_settings e ∧
   ∃ e', claudeHelper.saveApiKey "sk-ant-example" e = claudeHelper.Done e' ∧
         claudeHelper.getApiKey e' = Some (JStr "sk-ant-example") ∧
         claudeHelper.isAIAvailable e' = true) ∧
  (no_env_key e0 ∧ ¬ takes_settings e0 ∧
   claudeHelper.getApiKey
     (claudeHelper.env_of (claudeHelper.saveApiKey "sk-ant-example" e0)) = None) ∧
  claudeHelper.isAIAvailable (claudeHelper.env_of (claudeHelper.saveApiKey "" e))
  = false.
Proof.
  intros e e0. split; [|split].
  - assert (Henv : no_env_key e) by (left; reflexivity).
    split; [exact Henv|]. split; [exact I|].
    destruct (api_key_round_trip "sk-ant-example" e) as (Hsave & _).
    apply Hsave; [exact Henv | discriminate | exact I].
  - assert (Henv : no_env_key e0) by (left; reflexivity).
    assert (Hno : ¬ takes_settings e0) by (intros []).
    split; [exact Henv|]. split; [exact Hno|].
    destruct (api_key_round_trip "sk-ant-example" e0) as (_ & _ & Hother & _).
    destruct (Hother Henv Hno) as (_ & Hget & _). exact Hget.
  - destruct (api_key_round_trip "" e) as (_ & Hremove & _).
    apply Hremove. left. reflexivity.
Defined.

(** * The "show" action on any store *)

Lemma same_but_last_seen_refl ds : same_but_last_seen ds ds.
Proof. apply Forall2_same_length_lookup. split; [done|]. by intros i r r' -> [= ->]. Qed.

Lemma same_but_last_seen_trans ds1 ds2 ds3 :
  same_but_last_seen ds1 ds2 → same_but_last_seen ds2 ds3 →
  same_but_last_seen ds1 ds3.
Proof.
  unfold same_but_last_seen. intros H12 H23.
  revert ds3 H23. induction H12 as [|r1 r2 ds1 ds2 Hr _ IH]; intros ds3 H23.
  - by inversion H23.
  - inversion H23 as [|? r3 ? ds3' Hr' Hrest]; subst. constructor.
    + intros key Hk. by rewrite Hr', Hr.
    + by apply IH.
Qed.

Lemma same_but_last_seen_touch (ds : list record) i drive ts :
  ds !! i = Some drive →
  same_but_last_seen ds (<[i := <["last_seen" := JStr ts]> drive]> ds).
Proof.
  intros Hi. apply Forall2_same_length_lookup. split; [by rewrite length_insert|].
  intros j r r' Hj Hj'.
  apply list_lookup_insert_Some in Hj' as [(-> & <- & _) | (_ & Hj')].
  - assert (r = drive) as -> by congruence.
    intros key Hk. by apply lookup_insert_ne.
  - by assert (r' = r) as -> by congruence.
Qed.

Lemma touch_if_known_any clock (d : detect.drive) (w : world) :
  ¬ misshapen w →
  ∃ w', touch_if_known clock d w = Return tt w' ∧
        same_but_last_seen (stored w) (stored w') ∧
        ¬ misshapen w' ∧
        (¬ readable w →
         ¬ readable w' ∧ drives_file w' = drives_file w ∧ ticks w' = ticks w).
Proof.
  intros Hm. unfold touch_if_known, mbind, M_bind.
  rewrite getDriveByUUID_shaped by done.
  destruct_store w; try (by destruct Hm).
  - exists (initialized (World dir (Some Garbled) t)).
    split; [done|]. split; [constructor|]. split; [intros [] | done].
  - exists (initialized (World dir (Some (Text Null)) t)).
    split; [done|]. split; [constructor|]. split; [intros [] | done].
  - set (w := World dir (Some (Document ds)) t).
    assert (Hr : readable w) by exact I.
    destruct (find _ (stored w)).
    + rewrite updateLastSeen_run by solve_readable. rewrite stored_initialized.
      destruct (list_find _ (stored w)) as [[i drive]|] eqn:E.
      * eexists. split; [reflexivity|]. split; [|split; [intros [] | done]].
        rewrite stored_written. apply same_but_last_seen_touch.
        by apply list_find_Some in E as (Hi & _).
      * exists (initialized w). split; [done|].
        split; [apply same_but_last_seen_refl|]. split; [intros [] | done].
    + exists (initialized w). split; [done|].
      split; [apply same_but_last_seen_refl|]. split; [intros [] | done].
  - exists (initialized (World dir None t)).
    split; [done|]. split; [constructor|]. split; [intros [] | done].
Qed.

Lemma touch_loop_any clock (detected : list detect.drive) (w : world) :
  ¬ misshapen w →
  ∃ w', forEach (touch_if_known clock) detected w = Return tt w' ∧
        same_but_last_seen (stored w) (stored w') ∧
        ¬ misshapen w' ∧
        (¬ readable w →
         ¬ readable w' ∧ drives_file w' = drives_file w ∧ ticks w' = ticks w).
Proof.
  revert w. induction detected as [|d detected IH]; intros w Hm.
  - exists w. split; [done|]. split; [apply same_but_last_seen_refl | done].
  - destruct (touch_if_known_any clock d w Hm) as (w1 & Hstep & Hsame1 & Hm1 & Hg1).
    destruct (IH w1 Hm1) as (w2 & Hloop & Hsame2 & Hm2 & Hg2).
    exists w2. split; [|split; [|split]].
    + cbn. unfold mbind, M_bind. by rewrite Hstep.
    + by eapply same_but_last_seen_trans.
    + done.
    + intros Hn. destruct (Hg1 Hn) as (Hn1 & Hf1 & Ht1).
      destruct (Hg2 Hn1) as (Hn2 & Hf2 & Ht2).
      split; [done|]. split; congruence.
Qed.

(** X26. What the "show" action does on each backing file of the model.
    On a file that is absent, does not parse, holds [null] or is a
    document, it returns and keeps the registry as it is but for time
    stamps: one row per registered record, and afterwards the same
    records in the same order, each with all its fields unchanged except
    possibly last_seen; on a file that does not parse or holds [null] it
    shows no row, calls no mutator and leaves the file as it is.  On a
    file whose [drives] is [undefined] or a primitive it raises a
    TypeError with the file unchanged - at the first live node, or in the
    table when there is none - except that for an empty scan and the
    empty string as [drives] it shows no row. *)
Theorem showDrives_keeps_records clock
    (lsblk : option (list detect.blockdev)) (w : world) :
  (¬ misshapen w →
   ∃ rows w',
     diskmgt.showDrives clock lsblk w = Return rows w' ∧
     length rows = length (stored w) ∧
     same_but_last_seen (stored w) (stored w') ∧
     length (stored w') = length (stored w) ∧
     (¬ readable w →
      rows = [] ∧ drives_file w' = drives_file w ∧ ticks w' = ticks w)) ∧
  (∀ v, drives_file w = Some (Text (Data (NoArray v))) →
   diskmgt.showDrives clock lsblk w =
   if bool_decide (detect.detectDrives lsblk = []) && bool_decide (v = Some (JStr ""))
   then Return [] (initialized w)
   else Throw TypeError (initialized w)).
Proof.
  split.
  - intros Hm.
    assert (Hm0 : ¬ misshapen (initialized w)).
    { destruct_store w; cbn in *; tauto. }
    destruct (touch_loop_any clock (detect.detectDrives lsblk) (initialized w) Hm0)
      as (w' & Hloop & Hsame & _ & Hg).
    rewrite stored_initialized in Hsame.
    exists (display.displayDriveList (detect.detectDrives lsblk) (stored w)), w'.
    split; [|split; [|split; [|split]]].
    + unfold diskmgt.showDrives, mbind, M_bind. rewrite getAllDrives_shaped by done.
      change (forEach _ (detect.detectDrives lsblk))
        with (forEach (touch_if_known clock) (detect.detectDrives lsblk)).
      by rewrite Hloop.
    + unfold display.displayDriveList. by rewrite length_imap.
    + done.
    + symmetry. by eapply Forall2_length.
    + intros Hn.
      assert (Hn0 : ¬ readable (initialized w)).
      { destruct_store w; cbn in *; tauto. }
      destruct (Hg Hn0) as (_ & Hf & Ht). split; [|split].
      * destruct_store w; cbn in *; done || tauto.
      * rewrite Hf. destruct_store w; cbn in *; done || tauto.
      * rewrite Ht. by destruct w.
  - intros v Hv. unfold diskmgt.showDrives, mbind, M_bind.
    rewrite getAllDrives_any. unfold listed. rewrite Hv.
    assert (Hm0 : misshapen (initialized w)).
    { destruct w as [dir f t]. cbn in Hv. subst f. exact I. }
    destruct (detect.detectDrives lsblk) as [|d detected].
    + cbn. destruct v as [[[|c s'] | | |]|]; reflexivity.
    + cbn [forEach]. unfold mbind, M_bind.
      rewrite getDriveByUUID_misshapen by done. by rewrite initialized_idem.
Qed.

Lemma showDrives_keeps_records_witness :
  let corrupt := World true (Some Garbled) 0 in
  let empty_object := World true (Some (Text (Data (NoArray None)))) 0 in
  (¬ misshapen corrupt ∧ ¬ readable corrupt ∧
   ∃ rows w',
     diskmgt.showDrives frozen_clock example_scan corrupt = Return rows w' ∧
     rows = [] ∧ drives_file w' = Some Garbled ∧ ticks w' = 0) ∧
  (drives_file empty_object = Some (Text (Data (NoArray None))) ∧
   diskmgt.showDrives frozen_clock example_scan empty_object
   = Throw TypeError empty_object).
Proof.
  intros corrupt empty_object. split.
  - assert (Hm : ¬ misshapen corrupt) by (intros []).
    assert (Hn : ¬ readable corrupt) by (intros []).
    split; [exact Hm|]. split; [exact Hn|].
    destruct (showDrives_keeps_records frozen_clock example_scan corrupt)
      as (Hshow & _).
    destruct (Hshow Hm) as (rows & w' & Hrun & _ & _ & _ & Hbad).
    destruct (Hbad Hn) as (Hrows & Hfile & Hticks).
    exists rows, w'. split; [exact Hrun|]. split; [exact Hrows|].
    split; [exact Hfile | exact Hticks].
  - split; [reflexivity|].
    destruct (showDrives_keeps_records frozen_clock example_scan empty_object)
      as (_ & Hno).
    exact (Hno None eq_refl).
Defined.
